(** * server-supabase: the REST handlers of [server.js] over a store model

    The program is one Express module: ten route handlers that shape their
    input, issue one or more statements to a remote relational store through
    the Supabase client, and map the [{data, error}] replies to HTTP
    responses.  The handlers are embedded as programs of a small monad whose
    only effects are the store statements and the error log; the store itself
    is a reference model with a fault schedule, so that every statement can
    either run or return an error, as the client's replies do. *)

From Stdlib Require Import Ascii QArith Qcanon.
From stdpp Require Import sorting numbers strings gmap fin_maps list.

Local Open Scope Z_scope.
Local Open Scope string_scope.
Local Open Scope list_scope.

(** ** JavaScript values

    Numbers are IEEE doubles in the engine.  A finite number is kept as the
    rational it denotes, and what the program computes ([Number(text)],
    [x + 1]) is rounded as the engine rounds it: to the nearest double, ties
    to the even mantissa, with underflow to zero and overflow to an
    infinity.  [NaN] and the infinities are explicit; the sign of zero,
    which no handler can tell, is not kept. *)

Module JS.

Inductive number : Type :=
  | NaN
  | Inf (neg : bool)
  | Fin (q : Qc).

(** A JSON scalar.  [undefined] is not a JSON value: a property read that
    finds nothing is [None] of [option value].  The handlers compute with
    and branch on scalar fields only ([id], [order], [checked], [date],
    [group], [day]); arrays and objects nested in a record, which they would
    only pass along, are not represented. *)
Inductive value : Type :=
  | VNull
  | VBool (b : bool)
  | VNum (x : number)
  | VStr (s : string).

#[global] Instance number_eq_dec : EqDecision number.
Proof. solve_decision. Defined.

#[global] Instance value_eq_dec : EqDecision value.
Proof. solve_decision. Defined.

(** A JS object used as a record: property name to value. *)
Abbreviation obj := (gmap string value).

Definition num_of_Z (n : Z) : number := Fin (Qc_of_Z n).
Definition num_of_nat (n : nat) : number := num_of_Z (Z.of_nat n).

(** [ToBoolean]: [undefined], [null], [false], [0], [NaN] and the empty
    string are falsy. *)
Definition num_truthy (x : number) : bool :=
  match x with
  | NaN => false
  | Inf _ => true
  | Fin q => negb (bool_decide (q = 0%Qc))
  end.

Definition truthy (v : option value) : bool :=
  match v with
  | None | Some VNull => false
  | Some (VBool b) => b
  | Some (VNum x) => num_truthy x
  | Some (VStr s) => negb (bool_decide (s = ""))
  end.

(** [a || b] with a value on the right. *)
Definition or_else (a : option value) (b : value) : value :=
  match a with
  | Some v => if truthy a then v else b
  | None => b
  end.

(** [a ?? b]: only [null] and [undefined] give way. *)
Definition nullish (a : option value) (b : value) : value :=
  match a with
  | None | Some VNull => b
  | Some v => v
  end.

(** *** Rounding to a double *)

(** The integer part of the binary logarithm of [n/d], for positive [n]. *)
Definition floor_log2 (n : Z) (d : positive) : Z :=
  let e0 := Z.log2 n - Z.log2 (Z.pos d) in
  let above :=
    if (0 <=? e0)%Z then (Z.pos d * 2 ^ e0 <=? n)%Z
    else (Z.pos d <=? n * 2 ^ (- e0))%Z in
  if above then e0 else e0 - 1.

(** The integer nearest to [n/d], the even one of two equally near. *)
Definition round_half_even (n d : Z) : Z :=
  let f := n / d in
  let r := n mod d in
  if (2 * r <? d)%Z then f
  else if (d <? 2 * r)%Z then f + 1
  else if Z.even f then f else f + 1.

(** The double nearest to a rational: a multiple [r * 2^k] of the unit in
    the last place, where [k] is 52 below the binary exponent of the value,
    and never below -1074 (the subnormals); from [2^1024] on, an
    infinity. *)
Definition to_double (q : Qc) : number :=
  let n := Z.abs (Qnum q) in
  let d := Qden q in
  if (n =? 0)%Z then Fin 0%Qc
  else
    let neg := (Qnum q <? 0)%Z in
    let k := Z.max (floor_log2 n d) (-1022) - 52 in
    if (0 <=? k)%Z then
      let r := round_half_even n (Z.pos d * 2 ^ k) in
      if (2 ^ 1024 <=? r * 2 ^ k)%Z then Inf neg
      else Fin (Qc_of_Z ((if neg then - r else r) * 2 ^ k))
    else
      let r := round_half_even (n * 2 ^ (- k)) (Z.pos d) in
      Fin (Q2Qc (Qmake (if neg then - r else r) (Z.to_pos (2 ^ (- k))))).

(** [x + 1] on numbers: the sum, rounded. *)
Definition num_succ (x : number) : number :=
  match x with
  | Fin q => to_double (q + 1)%Qc
  | other => other
  end.

(** [v + 1]: numeric addition, except that a string operand makes [+] a
    concatenation with ["1"]. *)
Definition add1 (v : value) : value :=
  match v with
  | VNull => VNum (num_of_Z 1)
  | VBool b => VNum (num_of_Z (if b then 2 else 1))
  | VNum x => VNum (num_succ x)
  | VStr s => VStr (String.append s "1")
  end.

(** [a === n] for a number [n] on the right: equal only to the same
    number, and [NaN] is equal to nothing. *)
Definition num_strict_eq (x y : number) : bool :=
  match x, y with
  | NaN, _ | _, NaN => false
  | _, _ => bool_decide (x = y)
  end.

Definition strict_eq_num (a : option value) (n : number) : bool :=
  match a with
  | Some (VNum x) => num_strict_eq x n
  | _ => false
  end.

(** *** [Number(string)]

    The StringNumericLiteral grammar: optional white space around either a
    signed decimal literal (digits, fraction, exponent, or [Infinity]) or an
    unsigned binary, octal or hexadecimal integer; the empty string is [0];
    anything else is [NaN].  A string is read as its sequence of code units,
    each below 256. *)

Definition is_white_space (c : ascii) : bool :=
  let n := N_of_ascii c in
  ((9 <=? n) && (n <=? 13) || (n =? 32) || (n =? 160))%N.

Fixpoint trim_left (cs : list ascii) : list ascii :=
  match cs with
  | c :: cs' => if is_white_space c then trim_left cs' else cs
  | [] => []
  end.

Definition trim (cs : list ascii) : list ascii :=
  reverse (trim_left (reverse (trim_left cs))).

Definition digit_of (base : N) (c : ascii) : option N :=
  let n := N_of_ascii c in
  let d :=
    if ((48 <=? n) && (n <=? 57))%N then Some (n - 48)%N
    else if ((97 <=? n) && (n <=? 102))%N then Some (n - 87)%N
    else if ((65 <=? n) && (n <=? 70))%N then Some (n - 55)%N
    else None in
  match d with
  | Some d => if (d <? base)%N then Some d else None
  | None => None
  end.

(** The longest prefix of digits of the base, and what follows it. *)
Fixpoint take_digits (base : N) (cs : list ascii) : list N * list ascii :=
  match cs with
  | c :: cs' =>
      match digit_of base c with
      | Some d => let '(ds, r) := take_digits base cs' in (d :: ds, r)
      | None => ([], cs)
      end
  | [] => ([], [])
  end.

Definition digits_value (base : N) (ds : list N) : Z :=
  foldl (λ acc d, acc * Z.of_N base + Z.of_N d) 0 ds.

Definition take_sign (cs : list ascii) : bool * list ascii :=
  match cs with
  | "-"%char :: r => (true, r)
  | "+"%char :: r => (false, r)
  | _ => (false, cs)
  end.

(** ExponentPart, which must end the literal; no exponent is exponent 0. *)
Definition parse_exponent (cs : list ascii) : option Z :=
  match cs with
  | [] => Some 0
  | c :: cs' =>
      if bool_decide (c = "e"%char ∨ c = "E"%char) then
        let '(neg, r) := take_sign cs' in
        let '(ds, r') := take_digits 10 r in
        match ds, r' with
        | _ :: _, [] =>
            Some (if neg then - digits_value 10 ds else digits_value 10 ds)
        | _, _ => None
        end
      else None
  end.

(** StrUnsignedDecimalLiteral without [Infinity]: the mantissa as an
    integer and the power of ten it is scaled by. *)
Definition parse_unsigned_decimal (cs : list ascii) : option (Z * Z) :=
  let '(ip, r) := take_digits 10 cs in
  match r with
  | "."%char :: r1 =>
      let '(fp, r2) := take_digits 10 r1 in
      match ip, fp with
      | [], [] => None
      | _, _ =>
          match parse_exponent r2 with
          | Some e => Some (digits_value 10 (ip ++ fp), e - Z.of_nat (length fp))
          | None => None
          end
      end
  | _ =>
      match ip with
      | [] => None
      | _ =>
          match parse_exponent r with
          | Some e => Some (digits_value 10 ip, e)
          | None => None
          end
      end
  end.

(** NonDecimalIntegerLiteral: [0b], [0o] or [0x] and at least one digit. *)
Definition parse_non_decimal (cs : list ascii) : option (option Z) :=
  match cs with
  | "0"%char :: p :: r =>
      let base :=
        if bool_decide (p = "x"%char ∨ p = "X"%char) then Some 16%N
        else if bool_decide (p = "o"%char ∨ p = "O"%char) then Some 8%N
        else if bool_decide (p = "b"%char ∨ p = "B"%char) then Some 2%N
        else None in
      match base with
      | Some b =>
          Some match take_digits b r with
               | ((_ :: _) as ds, []) => Some (digits_value b ds)
               | _ => None
               end
      | None => None
      end
  | _ => None
  end.

(** [m * 10^e] as a rational. *)
Definition scale10 (m e : Z) : Qc :=
  if (0 <=? e)%Z then Qc_of_Z (m * 10 ^ e)
  else Q2Qc (Qmake m (Z.to_pos (10 ^ (- e)))).

Definition infinity_text : list ascii := String.list_ascii_of_string "Infinity".

Definition string_to_number (cs : list ascii) : number :=
  match trim cs with
  | [] => Fin 0%Qc
  | t =>
      match parse_non_decimal t with
      | Some (Some n) => to_double (Qc_of_Z n)
      | Some None => NaN
      | None =>
          let '(neg, r) := take_sign t in
          if bool_decide (r = infinity_text) then Inf neg
          else match parse_unsigned_decimal r with
               | Some (m, e) => to_double (scale10 (if neg then - m else m) e)
               | None => NaN
               end
      end
  end.

Definition Number (s : string) : number :=
  string_to_number (String.list_ascii_of_string s).

End JS.

Import JS.

(** ** The store

    The Supabase client and the database behind it are outside the
    repository.  The reference model below follows the interface the handlers
    consume (select with equality filters, ordering, limit and column choice;
    insert, update and delete; each answering [{data, error}]) and the data
    model of the two tables: [id] is a primary key the store assigns when the
    row brings none, and [order] of [users] is a numeric column.

    Rows and operands are held as the values the handler passes.  That is
    what reaches the database for the values the client's encoding carries
    unchanged: null, booleans, strings and finite numbers.  A number that
    is not finite is written as null by the client's JSON; the properties
    that rest on the stored values ask for a body without one
    ([serialisable]). *)

Module Store.

Inductive table : Type := Users | AttendanceHistory.

(** The client's error object, of which the handlers read [message]. *)
Record error : Type := { message : string; code : string }.

Inductive result (A : Type) : Type :=
  | Ok (data : A)
  | Err (e : error).
Arguments Ok {A} data.
Arguments Err {A} e.

Inductive columns : Type := Star | Col (c : string).

(** [.eq(column, operand)]; the operand is [None] when the handler passes
    [undefined]. *)
Abbreviation filter_eq := (string * option value)%type.

Inductive query : Type :=
  | Select (t : table) (cols : columns) (filters : list filter_eq)
      (ord : option (string * bool)) (lim : option nat)
  | InsertSingle (t : table) (row : obj)
  | UpdateSingle (t : table) (upd : obj) (filters : list filter_eq)
  | Update (t : table) (upd : obj) (filters : list filter_eq)
  | Delete (t : table) (filters : list filter_eq).

(** What [data] holds when [error] is null. *)
Definition data_of (q : query) : Type :=
  match q with
  | Select _ _ _ _ _ => list obj
  | InsertSingle _ _ | UpdateSingle _ _ _ => obj
  | Update _ _ _ | Delete _ _ => unit
  end.

Record tbl : Type := { rows : list obj; next_id : Z }.

Record database : Type := { users : tbl; attendanceHistory : tbl }.

Definition get_table (t : table) (d : database) : tbl :=
  match t with
  | Users => users d
  | AttendanceHistory => attendanceHistory d
  end.

Definition set_table (t : table) (tb : tbl) (d : database) : database :=
  match t with
  | Users => {| users := tb; attendanceHistory := attendanceHistory d |}
  | AttendanceHistory => {| users := users d; attendanceHistory := tb |}
  end.

(** *** Filters *)

(** A cell satisfies [eq] when it holds the operand; a NULL cell and an
    [undefined] operand satisfy nothing. *)
Definition cell_matches (c x : option value) : bool :=
  match c, x with
  | Some VNull, _ | None, _ | _, None => false
  | Some c, Some x => bool_decide (c = x)
  end.

Definition row_matches (filters : list filter_eq) (r : obj) : bool :=
  forallb (λ f : filter_eq, cell_matches (r !! f.1) f.2) filters.

(** *** Ordering *)

(** Numbers from minus infinity to plus infinity, [NaN] above them. *)
Definition num_le (x y : number) : bool :=
  match x, y with
  | _, NaN => true
  | NaN, _ => false
  | Inf true, _ => true
  | _, Inf true => false
  | _, Inf false => true
  | Inf false, _ => false
  | Fin a, Fin b => bool_decide (a ≤ b)%Qc
  end.

Definition rank (c : option value) : nat :=
  match c with
  | Some (VBool _) => 0
  | Some (VNum _) => 1
  | Some (VStr _) => 2
  | Some VNull | None => 3
  end.

(** The ascending order of cells: within a type its own order, NULLs
    last. *)
Definition cell_le (a b : option value) : bool :=
  match a, b with
  | Some (VBool x), Some (VBool y) => implb x y
  | Some (VNum x), Some (VNum y) => num_le x y
  | Some (VStr x), Some (VStr y) => String.leb x y
  | _, _ => (rank a <=? rank b)%nat
  end.

(** [.order(column, {ascending})]. *)
Definition row_le (c : string) (ascending : bool) (r1 r2 : obj) : bool :=
  if ascending then cell_le (r1 !! c) (r2 !! c)
  else cell_le (r2 !! c) (r1 !! c).

Section sort.
Context {A : Type} (le : A → A → bool).

Fixpoint insert_sorted (x : A) (l : list A) : list A :=
  match l with
  | [] => [x]
  | y :: l' => if le x y then x :: l else y :: insert_sorted x l'
  end.

(** Rows that compare equal stay in table order. *)
Definition sort_by (l : list A) : list A := foldr insert_sorted [] l.
End sort.

Definition project (cols : columns) (r : obj) : obj :=
  match cols with
  | Star => r
  | Col c => {[ c := default VNull (r !! c) ]}
  end.

Definition run_select (rs : list obj) (cols : columns)
    (filters : list filter_eq) (ord : option (string * bool))
    (lim : option nat) : list obj :=
  let matched := filter (λ r, row_matches filters r) rs in
  let ordered :=
    match ord with
    | Some (c, asc) => sort_by (row_le c asc) matched
    | None => matched
    end in
  let limited :=
    match lim with
    | Some n => take n ordered
    | None => ordered
    end in
  project cols <$> limited.

(** *** Constraints

    Modelled from the spec: the schema of the two tables, which the
    repository does not hold.  Section 3 of the specification makes [id] the
    store-assigned primary key of both record kinds, hence present, not
    null and unique, and [order] a number on every user record. *)

Definition has_pk (r : obj) : bool :=
  match r !! "id" with
  | Some VNull | None => false
  | Some _ => true
  end.

Definition numeric_order (r : obj) : bool :=
  match r !! "order" with
  | Some (VNum (Fin _)) => true
  | _ => false
  end.

Definition constraints_ok (t : table) (rs : list obj) : bool :=
  forallb has_pk rs
  && bool_decide (NoDup ((λ r : obj, r !! "id") <$> rs))
  && match t with
     | Users => forallb numeric_order rs
     | AttendanceHistory => true
     end.

Definition constraint_violation : error :=
  {| message := "new row violates a constraint of the table";
     code := "23000" |}.

Definition no_single_row : error :=
  {| message := "JSON object requested, multiple (or no) rows returned";
     code := "PGRST116" |}.

(** *** Statements *)

(** [insert(row).select().single()]: the row gets an identifier when it
    brings none, and is returned as stored. *)
Definition run_insert (t : table) (tb : tbl) (p : obj) : result obj * tbl :=
  let '(row, nid) :=
    match p !! "id" with
    | None => (<["id" := VNum (num_of_Z (next_id tb))]> p, next_id tb + 1)
    | Some _ => (p, next_id tb)
    end in
  let rs := rows tb ++ [row] in
  if constraints_ok t rs then (Ok row, {| rows := rs; next_id := nid |})
  else (Err constraint_violation, tb).

(** An update is field-wise: the supplied fields replace those of every
    matching row and the others stay. *)
Definition apply_update (u : obj) (filters : list filter_eq)
    (rs : list obj) : list obj :=
  (λ r : obj, if row_matches filters r then u ∪ r else r) <$> rs.

(** [update(u).eq(..)]. *)
Definition run_update (t : table) (tb : tbl) (u : obj)
    (filters : list filter_eq) : result unit * tbl :=
  let rs := apply_update u filters (rows tb) in
  if constraints_ok t rs then (Ok (), {| rows := rs; next_id := next_id tb |})
  else (Err constraint_violation, tb).

(** [update(u).eq(..).select().single()]: exactly one row must come back,
    otherwise the statement is an error and changes nothing. *)
Definition run_update_single (t : table) (tb : tbl) (u : obj)
    (filters : list filter_eq) : result obj * tbl :=
  match filter (λ r, row_matches filters r) (rows tb) with
  | [r] =>
      let rs := apply_update u filters (rows tb) in
      if constraints_ok t rs
      then (Ok (u ∪ r), {| rows := rs; next_id := next_id tb |})
      else (Err constraint_violation, tb)
  | _ => (Err no_single_row, tb)
  end.

(** [delete().eq(..)]: removing no row is not an error. *)
Definition run_delete (tb : tbl) (filters : list filter_eq) : result unit * tbl :=
  (Ok (), {| rows := filter (λ r, ¬ row_matches filters r) (rows tb);
             next_id := next_id tb |}).

Definition exec (q : query) (d : database) : result (data_of q) * database :=
  match q return result (data_of q) * database with
  | Select t cols filters ord lim =>
      (Ok (run_select (rows (get_table t d)) cols filters ord lim), d)
  | InsertSingle t p =>
      let '(r, tb) := run_insert t (get_table t d) p in (r, set_table t tb d)
  | UpdateSingle t u filters =>
      let '(r, tb) := run_update_single t (get_table t d) u filters in
      (r, set_table t tb d)
  | Update t u filters =>
      let '(r, tb) := run_update t (get_table t d) u filters in
      (r, set_table t tb d)
  | Delete t filters =>
      let '(r, tb) := run_delete (get_table t d) filters in
      (r, set_table t tb d)
  end.

(** *** Statements that fail

    A statement can fail for reasons of the store's own (the network, a
    type or constraint the model does not track).  The fault schedule says,
    statement by statement in the order they are issued, whether the next
    one fails and with which error; a failed statement changes nothing.
    The world also records the statements issued and the error log. *)

Record world : Type := {
  db : database;
  faults : list (option error);
  calls : list query;
  log : list (string * error);
}.

(** The error the schedule holds for the next statement, if any. *)
Definition next_fault (fs : list (option error)) : option error :=
  match fs with
  | Some e :: _ => Some e
  | _ => None
  end.

Definition step (q : query) (w : world) : result (data_of q) * world :=
  let '(r, d) :=
    match next_fault (faults w) with
    | Some e => (Err e, db w)
    | None => exec q (db w)
    end in
  (r, {| db := d; faults := tail (faults w); calls := calls w ++ [q];
         log := log w |}).

End Store.

Import Store.

(** ** Handler programs

    A handler is a program whose effects are the awaited store statements
    and [console.error].  [run] executes it against a world.  A request
    body is a JSON object, or absent ([req.body] undefined); a path
    parameter is a string.  The client
    resolves every statement to [{data, error}] and the handler bodies have
    no operation that throws on the values of the model, so the [catch] arm
    of each handler has no counterpart here. *)

Module Handler.

Inductive prog (A : Type) : Type :=
  | Ret (a : A)
  | Call (q : query) (k : result (data_of q) → prog A)
  | Log (place : string) (e : error) (k : prog A).
Arguments Ret {A} a.
Arguments Call {A} q k.
Arguments Log {A} place e k.

Fixpoint bind {A B : Type} (k : A → prog B) (p : prog A) : prog B :=
  match p with
  | Ret a => k a
  | Call q h => Call q (λ r, bind k (h r))
  | Log place e p' => Log place e (bind k p')
  end.

#[global] Instance prog_ret : MRet prog := @Ret.
#[global] Instance prog_bind : MBind prog := @bind.

(** [await supabase.from(..)...]. *)
Definition call (q : query) : prog (result (data_of q)) := Call q Ret.

Definition console_error (place : string) (e : error) : prog unit :=
  Log place e (Ret ()).

Fixpoint run {A : Type} (p : prog A) (w : world) : A * world :=
  match p with
  | Ret a => (a, w)
  | Call q k => let '(r, w') := step q w in run (k r) w'
  | Log place e k =>
      run k {| db := db w; faults := faults w; calls := calls w;
               log := log w ++ [(place, e)] |}
  end.

(** *** Responses *)

Inductive detail : Type :=
  | DText (s : string)
  | DError (e : error).

Inductive json_body : Type :=
  | JRows (data : list obj)
  | JRow (data : obj)
  | JSuccess
  | JError (error_text : string) (det : option detail).

Record response : Type := { status : nat; body : json_body }.

(** [res.json(x)] answers 200 unless a status was set. *)
Definition json (b : json_body) : response := {| status := 200; body := b |}.

(** [err?.message || err]. *)
Definition detail_of (err : error) : detail :=
  if bool_decide (message err = "") then DError err else DText (message err).

Definition internal_error (err : error) : response :=
  {| status := 500; body := JError "Server xatosi" (Some (detail_of err)) |}.

Definition handleErr (place : string) (err : error) : prog response :=
  console_error place err;;
  mret (internal_error err).

(** [Number(req.params.id) || req.params.id]. *)
Definition parse_id (param : string) : value :=
  if num_truthy (Number param) then VNum (Number param) else VStr param.

(** [const update = { ...req.body }; delete update.id]. *)
Definition strip_id (body : option obj) : obj :=
  delete "id" (default ∅ body).

(** *** users *)

Definition get_users : prog response :=
  r ← call (Select Users Star [] (Some ("order", true)) None);
  match r with
  | Err error => handleErr "GET /users supabase error" error
  | Ok data => mret (json (JRows data))
  end.

(** [(maxOrderRows && maxOrderRows[0]?.order) || 0]: an array is truthy. *)
Definition last_order (maxOrderRows : list obj) : value :=
  or_else (head maxOrderRows ≫= (.!! "order")) (VNum (num_of_Z 0)).

(** [{ ...body, order: newOrder, checked: body.checked ?? false }]. *)
Definition new_user (body : obj) (newOrder : value) : obj :=
  <["checked" := nullish (body !! "checked") (VBool false)]>
    (<["order" := newOrder]> body).

Definition post_users (req_body : option obj) : prog response :=
  let body := default ∅ req_body in
  m ← call (Select Users (Col "order") [] (Some ("order", false)) (Some 1%nat));
  match m with
  | Err maxOrderErr => handleErr "POST /users get max order" maxOrderErr
  | Ok maxOrderRows =>
      let lastOrder := last_order maxOrderRows in
      let newOrder := add1 lastOrder in
      let payload := new_user body newOrder in
      r ← call (InsertSingle Users payload);
      match r with
      | Err error => handleErr "POST /users insert" error
      | Ok data => mret {| status := 201; body := JRow data |}
      end
  end.

Definition put_users (param : string) (req_body : option obj) : prog response :=
  let id := parse_id param in
  let update := strip_id req_body in
  r ← call (UpdateSingle Users update [("id", Some id)]);
  match r with
  | Err error => handleErr "PUT /users update" error
  | Ok data => mret (json (JRow data))
  end.

Definition patch_users (param : string) (req_body : option obj) : prog response :=
  let id := parse_id param in
  let update := strip_id req_body in
  r ← call (UpdateSingle Users update [("id", Some id)]);
  match r with
  | Err error => handleErr "PATCH /users update" error
  | Ok data => mret (json (JRow data))
  end.

(** The loop over the re-read rows: [all[i].order !== i + 1] decides
    whether row [i] is rewritten, and the reply of the update is dropped. *)
Fixpoint resequence (i : nat) (all : list obj) : prog unit :=
  match all with
  | [] => mret ()
  | row :: rest =>
      (if negb (strict_eq_num (row !! "order") (num_of_nat (i + 1)))
       then
         _ ← call (Update Users {[ "order" := VNum (num_of_nat (i + 1)) ]}
                     [("id", row !! "id")]);
         mret ()
       else mret ());;
      resequence (S i) rest
  end.

Definition delete_users (param : string) : prog response :=
  let id := parse_id param in
  r ← call (Delete Users [("id", Some id)]);
  match r with
  | Err error => handleErr "DELETE /users" error
  | Ok _ =>
      a ← call (Select Users Star [] (Some ("order", true)) None);
      match a with
      | Err allErr => handleErr "DELETE /users re-fetch" allErr
      | Ok all =>
          resequence 0 all;;
          mret (json JSuccess)
      end
  end.

(** *** attendanceHistory *)

Definition get_attendance : prog response :=
  r ← call (Select AttendanceHistory Star [] (Some ("id", true)) None);
  match r with
  | Err error => handleErr "GET /attendanceHistory" error
  | Ok data => mret (json (JRows data))
  end.

Definition duplicate_attendance : response :=
  {| status := 400;
     body := JError "Bu guruhning bugungi davomati mavjud." None |}.

Definition post_attendance (req_body : option obj) : prog response :=
  let body := default ∅ req_body in
  x ← call (Select AttendanceHistory (Col "id")
              [("date", body !! "date"); ("group", body !! "group");
               ("day", body !! "day")] None None);
  match x with
  | Err existsErr => handleErr "POST /attendanceHistory exists check" existsErr
  | Ok exists_ =>
      if (0 <? length exists_)%nat then mret duplicate_attendance
      else
        r ← call (InsertSingle AttendanceHistory body);
        match r with
        | Err error => handleErr "POST /attendanceHistory insert" error
        | Ok data => mret {| status := 201; body := JRow data |}
        end
  end.

Definition put_attendance (param : string) (req_body : option obj) : prog response :=
  let id := parse_id param in
  let update := strip_id req_body in
  r ← call (UpdateSingle AttendanceHistory update [("id", Some id)]);
  match r with
  | Err error => handleErr "PUT /attendanceHistory update" error
  | Ok data => mret (json (JRow data))
  end.

Definition delete_attendance (param : string) : prog response :=
  let id := parse_id param in
  r ← call (Delete AttendanceHistory [("id", Some id)]);
  match r with
  | Err error => handleErr "DELETE /attendanceHistory" error
  | Ok _ => mret (json JSuccess)
  end.

End Handler.

Import Handler.

#[global] Instance table_eq_dec : EqDecision table.
Proof. solve_decision. Defined.
#[global] Instance error_eq_dec : EqDecision error.
Proof. solve_decision. Defined.
#[global] Instance result_eq_dec {A : Type} `{EqDecision A} : EqDecision (result A).
Proof. solve_decision. Defined.
#[global] Instance columns_eq_dec : EqDecision columns.
Proof. solve_decision. Defined.
#[global] Instance query_eq_dec : EqDecision query.
Proof. solve_decision. Defined.
#[global] Instance tbl_eq_dec : EqDecision tbl.
Proof. solve_decision. Defined.
#[global] Instance database_eq_dec : EqDecision database.
Proof. solve_decision. Defined.
#[global] Instance detail_eq_dec : EqDecision detail.
Proof. solve_decision. Defined.
#[global] Instance json_body_eq_dec : EqDecision json_body.
Proof. solve_decision. Defined.
#[global] Instance response_eq_dec : EqDecision response.
Proof. solve_decision. Defined.


(** ** Vocabulary of the claims *)

(** The statements a program issues when run in a world. *)
Definition trace_of {A : Type} (p : prog A) (w : world) : list query :=
  drop (length (calls w)) (calls (run p w).2).

Definition listing (d : database) : list obj :=
  sort_by (row_le "order" true) (rows (users d)).

Definition empty_db : database :=
  {| users := {| rows := []; next_id := 1 |};
     attendanceHistory := {| rows := []; next_id := 1 |} |}.

Definition world_of (d : database) (fs : list (option error)) : world :=
  {| db := d; faults := fs; calls := []; log := [] |}.

Definition outage : error :=
  {| message := "FetchError: request to the store failed"; code := "" |}.

Definition max_order_query : query :=
  Select Users (Col "order") [] (Some ("order", false)) (Some 1%nat).

(** The order the server computes from the store as it stands. *)
Definition computed_order (d : database) : value :=
  add1 (last_order
          (run_select (rows (users d)) (Col "order") []
             (Some ("order", false)) (Some 1%nat))).

Definition id_filter (param : string) : list filter_eq :=
  [("id", Some (parse_id param))].

(** The world in which the loop of DELETE /users/:id starts: the primary
    delete and the re-read have both succeeded. *)
Definition after_delete (param : string) (w : world) : world :=
  {| db := {| users :=
                {| rows := filter (λ r, ¬ row_matches (id_filter param) r)
                             (rows (users (db w)));
                   next_id := next_id (users (db w)) |};
              attendanceHistory := attendanceHistory (db w) |};
     faults := tail (tail (faults w));
     calls := (calls w ++ [Delete Users (id_filter param)])
                ++ [Select Users Star [] (Some ("order", true)) None];
     log := log w |}.

Definition no_match (t : table) (param : string) (d : database) : Prop :=
  Forall (λ r, row_matches (id_filter param) r = false) (rows (get_table t d)).

(** The three equality filters of the existence check. *)
Definition triple (body : obj) : list filter_eq :=
  [("date", body !! "date"); ("group", body !! "group"); ("day", body !! "day")].

Definition exists_query (body : obj) : query :=
  Select AttendanceHistory (Col "id") (triple body) None None.

(** The records the existence check finds. *)
Definition duplicates (body : obj) (d : database) : list obj :=
  filter (λ r, row_matches (triple body) r) (rows (attendanceHistory d)).

Definition monday : obj :=
  {[ "id" := VNum (num_of_Z 1); "date" := VStr "2024-05-06";
     "group" := VStr "A"; "day" := VStr "Monday" ]}.

Definition attended_db : database :=
  {| users := {| rows := []; next_id := 1 |};
     attendanceHistory := {| rows := [monday]; next_id := 2 |} |}.

Definition tuesday : obj :=
  {[ "id" := VNum (num_of_Z 2); "date" := VStr "2024-05-07";
     "group" := VStr "A"; "day" := VStr "Tuesday" ]}.

Definition wednesday : obj :=
  {[ "date" := VStr "2024-05-08"; "group" := VStr "A";
     "day" := VStr "Wednesday" ]}.

Definition week_db : database :=
  {| users := {| rows := []; next_id := 1 |};
     attendanceHistory := {| rows := [monday; tuesday]; next_id := 3 |} |}.

(** What a record [r] may have become in [r'] after an update by
    identifier with the given body. *)
Definition field_frame (body : obj) (param : string) (r r' : obj) : Prop :=
  r' !! "id" = r !! "id"
  ∧ (∀ k, body !! k = None → r' !! k = r !! k)
  ∧ (row_matches (id_filter param) r = false → r' = r)
  ∧ (r' = r ∨ ∀ k v, k ≠ "id" → body !! k = Some v → r' !! k = Some v).

Definition update_frame (body : obj) (param : string) (d d' : database) : Prop :=
  attendanceHistory d' = attendanceHistory d
  ∧ next_id (users d') = next_id (users d)
  ∧ Forall2 (field_frame body param) (rows (users d)) (rows (users d')).

(** [M] is the greatest [order] among the user records. *)
Definition is_max_order (M : Qc) (d : database) : Prop :=
  (∃ r, r ∈ rows (users d) ∧ r !! "order" = Some (VNum (Fin M)))
  ∧ ∀ r, r ∈ rows (users d) →
      ∃ q, r !! "order" = Some (VNum (Fin q)) ∧ (q ≤ M)%Qc.

(** The current maximum order, which is 0 for the empty table. *)
Inductive current_max (d : database) : Qc → Prop :=
  | current_max_empty : rows (users d) = [] → current_max d 0%Qc
  | current_max_order M : is_max_order M d → current_max d M.

Definition ids (rs : list obj) : list (option value) :=
  (λ r : obj, r !! "id") <$> rs.

(** The constraints of a table, as a proposition. *)
Definition table_ok (t : table) (rs : list obj) : Prop :=
  Forall (λ r, has_pk r = true) rs
  ∧ NoDup (ids rs)
  ∧ (t = Users → Forall (λ r, numeric_order r = true) rs).

(** A database whose tables satisfy their constraints: the empty one does,
    and every statement keeps it so. *)
Definition valid (d : database) : Prop :=
  table_ok Users (rows (users d))
  ∧ table_ok AttendanceHistory (rows (attendanceHistory d)).

(** A schedule without a fault: every statement of the request succeeds
    unless the store itself refuses it. *)
Definition fault_free (fs : list (option error)) : Prop :=
  Forall (λ o, o = None) fs.

(** What the loop makes of the re-read rows: row [j] gets order [j + 1]. *)
Fixpoint renumber (i : nat) (all : list obj) : list obj :=
  match all with
  | [] => []
  | row :: rest =>
      <["order" := VNum (num_of_nat (i + 1))]> row :: renumber (S i) rest
  end.

Definition user (id order : Z) (name : string) : obj :=
  {[ "id" := VNum (num_of_Z id); "order" := VNum (num_of_Z order);
     "checked" := VBool false; "name" := VStr name ]}.

Definition roster_db : database :=
  {| users := {| rows := [user 1 1 "alice"; user 2 2 "bob"; user 3 3 "carol"];
                 next_id := 4 |};
     attendanceHistory := {| rows := []; next_id := 1 |} |}.

(** A table whose one record has the order [2^53], the least number whose
    successor is not a double; PUT /users/:id with the body
    [{"order": 9007199254740992}] gives a record that order. *)
Definition crowded_db : database :=
  {| users := {| rows := [user 1 (2 ^ 53) "zed"]; next_id := 2 |};
     attendanceHistory := {| rows := []; next_id := 1 |} |}.

(** *** The routes

    The nine routes the module registers on the two resources, each with
    what Express hands its handler: the path parameter and the parsed
    body. *)

Inductive request : Type :=
  | GetUsers
  | PostUsers (req_body : option obj)
  | PutUsers (param : string) (req_body : option obj)
  | PatchUsers (param : string) (req_body : option obj)
  | DeleteUsers (param : string)
  | GetAttendance
  | PostAttendance (req_body : option obj)
  | PutAttendance (param : string) (req_body : option obj)
  | DeleteAttendance (param : string).

Definition handle (r : request) : prog response :=
  match r with
  | GetUsers => get_users
  | PostUsers b => post_users b
  | PutUsers p b => put_users p b
  | PatchUsers p b => patch_users p b
  | DeleteUsers p => delete_users p
  | GetAttendance => get_attendance
  | PostAttendance b => post_attendance b
  | PutAttendance p b => put_attendance p b
  | DeleteAttendance p => delete_attendance p
  end.

(** The table a route works on. *)
Definition table_of (r : request) : table :=
  match r with
  | GetUsers | PostUsers _ | PutUsers _ _ | PatchUsers _ _ | DeleteUsers _ =>
      Users
  | _ => AttendanceHistory
  end.

Definition other_table (t : table) : table :=
  match t with
  | Users => AttendanceHistory
  | AttendanceHistory => Users
  end.

Definition query_table (q : query) : table :=
  match q with
  | Select t _ _ _ _ | InsertSingle t _ | UpdateSingle t _ _
  | Update t _ _ | Delete t _ => t
  end.

(** A program all of whose statements, whatever the replies, address one
    table. *)
Inductive on_table {A : Type} (t : table) : prog A → Prop :=
  | on_table_ret a : on_table t (Ret a)
  | on_table_call q k :
      query_table q = t → (∀ r, on_table t (k r)) → on_table t (Call q k)
  | on_table_log place e p : on_table t p → on_table t (Log place e p).

(** The statements the loop of DELETE /users/:id issues for the rows it
    re-read. *)
Fixpoint resequence_updates (i : nat) (all : list obj) : list query :=
  match all with
  | [] => []
  | row :: rest =>
      (if strict_eq_num (row !! "order") (num_of_nat (i + 1)) then []
       else [Update Users {[ "order" := VNum (num_of_nat (i + 1)) ]}
               [("id", row !! "id")]])
      ++ resequence_updates (S i) rest
  end.

(** The dense ordering: listed by [order], the user records carry
    1, 2, ..., N. *)
Definition dense (d : database) : Prop :=
  (λ r : obj, r !! "order") <$> listing d
    = (λ n, Some (VNum (num_of_nat n))) <$> seq 1 (length (rows (users d))).

(** No two records of the table are found by each other's triple. *)
Definition triple_unique (rs : list obj) : Prop :=
  ∀ i j r1 r2, rs !! i = Some r1 → rs !! j = Some r2 → i ≠ j →
    row_matches (triple r1) r2 = false.

(** A value the client's JSON carries to the store as it is: written in
    JSON, a number that is not finite becomes null. *)
Definition json_value (v : value) : bool :=
  match v with
  | VNum NaN | VNum (Inf _) => false
  | _ => true
  end.

(** A body all of whose fields reach the store as they are. *)
Definition serialisable (body : obj) : Prop :=
  map_Forall (λ _ v, json_value v = true) body.

(** A body with the three fields of the triple, none of them null. *)
Definition has_triple (body : obj) : Prop :=
  ∀ c, c ∈ ["date"; "group"; "day"] → ∃ v, v ≠ VNull ∧ body !! c = Some v.

(** The decimal text of a list of digits. *)
Definition digit_char (d : N) : ascii := ascii_of_N (48 + d).

Definition digits_text (ds : list N) : string :=
  String.string_of_list_ascii (digit_char <$> ds).

(** Creations and deletions on the roster, one request after the other. *)
Inductive roster_op : Type :=
  | Create (req_body : option obj)
  | Remove (param : string).

Definition roster_request (op : roster_op) : request :=
  match op with
  | Create b => PostUsers b
  | Remove p => DeleteUsers p
  end.

Fixpoint run_requests (rs : list request) (w : world) : world :=
  match rs with
  | [] => w
  | r :: rest => run_requests rest (run (handle r) w).2
  end.

(** ** Order theory of the store's ORDER BY *)

Section order_facts.

Lemma string_leb_trans (s1 s2 s3 : string) :
  String.leb s1 s2 = true → String.leb s2 s3 = true → String.leb s1 s3 = true.
Proof.
  unfold String.leb. revert s2 s3.
  induction s1 as [|a s1 IH]; intros [|b s2] [|c s3]; simpl; try done.
  unfold Ascii.compare.
  destruct (N.compare_spec (N_of_ascii a) (N_of_ascii b)) as [Hab|Hab|Hab];
    destruct (N.compare_spec (N_of_ascii b) (N_of_ascii c)) as [Hbc|Hbc|Hbc];
    destruct (N.compare_spec (N_of_ascii a) (N_of_ascii c)) as [Hac|Hac|Hac];
    try done; try lia.
  apply IH.
Qed.

Lemma num_le_total (x y : number) : num_le x y = true ∨ num_le y x = true.
Proof.
  destruct x as [|[]|a], y as [|[]|b]; simpl; auto.
  rewrite !bool_decide_eq_true.
  destruct (Qclt_le_dec a b) as [H|H]; [left; by apply Qclt_le_weak | by right].
Qed.

Lemma num_le_trans (x y z : number) :
  num_le x y = true → num_le y z = true → num_le x z = true.
Proof.
  destruct x as [|[]|a], y as [|[]|b], z as [|[]|c]; simpl; try done.
  rewrite !bool_decide_eq_true. apply Qcle_trans.
Qed.

Lemma cell_le_total (a b : option value) :
  cell_le a b = true ∨ cell_le b a = true.
Proof.
  destruct a as [[|x|x|x]|], b as [[|y|y|y]|]; simpl; auto.
  - destruct x, y; auto.
  - apply num_le_total.
  - apply String.leb_total.
Qed.

Lemma cell_le_trans (a b c : option value) :
  cell_le a b = true → cell_le b c = true → cell_le a c = true.
Proof.
  destruct a as [[|x|x|x]|], b as [[|y|y|y]|], c as [[|z|z|z]|];
    simpl; try done.
  - by destruct x, y, z.
  - apply num_le_trans.
  - apply string_leb_trans.
Qed.

Lemma row_le_total c asc (r1 r2 : obj) :
  row_le c asc r1 r2 = true ∨ row_le c asc r2 r1 = true.
Proof. unfold row_le. destruct asc; apply cell_le_total. Qed.

Lemma row_le_trans c asc (r1 r2 r3 : obj) :
  row_le c asc r1 r2 = true → row_le c asc r2 r3 = true →
  row_le c asc r1 r3 = true.
Proof.
  unfold row_le. destruct asc; intros H1 H2.
  - by eapply cell_le_trans.
  - by eapply cell_le_trans.
Qed.

End order_facts.

(** ** The insertion sort: a stable sort *)

Section sort_facts.
Context {A : Type} (le : A → A → bool).
Hypothesis le_total : ∀ x y, le x y = true ∨ le y x = true.
Hypothesis le_trans : ∀ x y z, le x y = true → le y z = true → le x z = true.

Lemma insert_sorted_perm x l : insert_sorted le x l ≡ₚ x :: l.
Proof.
  induction l as [|y l IH]; simpl; [done|].
  destruct (le x y); [done|]. rewrite IH. apply Permutation_swap.
Qed.

Lemma sort_by_perm l : sort_by le l ≡ₚ l.
Proof.
  induction l as [|x l IH]; simpl; [done|].
  by rewrite insert_sorted_perm, IH.
Qed.

Lemma insert_sorted_sorted x l :
  StronglySorted (λ a b, le a b = true) l →
  StronglySorted (λ a b, le a b = true) (insert_sorted le x l).
Proof.
  induction 1 as [|y l Hl IH Hy]; simpl.
  { repeat constructor. }
  destruct (le x y) eqn:Hxy.
  - constructor; [by constructor|].
    constructor; [done|].
    eapply Forall_impl; [exact Hy|]. intros z Hz. by eapply le_trans.
  - constructor; [done|].
    rewrite insert_sorted_perm. constructor; [|done].
    destruct (le_total x y); congruence.
Qed.

Lemma sort_by_sorted l : StronglySorted (λ a b, le a b = true) (sort_by le l).
Proof.
  induction l as [|x l IH]; simpl; [constructor|].
  by apply insert_sorted_sorted.
Qed.

(** Inserting below everything is a cons. *)
Lemma insert_sorted_least x l :
  Forall (λ y, le x y = true) l → insert_sorted le x l = x :: l.
Proof. destruct 1 as [|y l Hy _]; simpl; [done|]. by rewrite Hy. Qed.

(** Stability: the sort commutes with dropping rows. *)
Lemma filter_insert_sorted (P : A → Prop) `{!∀ x, Decision (P x)} x l :
  StronglySorted (λ a b, le a b = true) l →
  filter P (insert_sorted le x l) =
    if decide (P x) then insert_sorted le x (filter P l) else filter P l.
Proof.
  induction 1 as [|y l Hl IH Hy]; simpl.
  { rewrite filter_cons, filter_nil. by destruct (decide (P x)). }
  destruct (le x y) eqn:Hxy.
  - rewrite filter_cons. destruct (decide (P x)); [|done].
    symmetry. apply insert_sorted_least.
    rewrite filter_cons. destruct (decide (P y)).
    + constructor; [done|]. apply Forall_forall. intros z Hz.
      apply list_elem_of_filter in Hz as [_ Hz].
      rewrite Forall_forall in Hy. eapply le_trans; [exact Hxy|by apply Hy].
    + apply Forall_forall. intros z Hz.
      apply list_elem_of_filter in Hz as [_ Hz].
      rewrite Forall_forall in Hy. eapply le_trans; [exact Hxy|by apply Hy].
  - rewrite !filter_cons. destruct (decide (P y)).
    + rewrite IH. destruct (decide (P x)); [|done]. simpl. by rewrite Hxy.
    + by rewrite IH.
Qed.

Lemma filter_sort_by (P : A → Prop) `{!∀ x, Decision (P x)} l :
  filter P (sort_by le l) = sort_by le (filter P l).
Proof.
  induction l as [|x l IH]; simpl; [done|].
  rewrite filter_insert_sorted by apply sort_by_sorted.
  rewrite filter_cons. destruct (decide (P x)); simpl; by rewrite IH.
Qed.

End sort_facts.

(** ** Running programs *)

Section run_facts.

Lemma run_bind {A B : Type} (p : prog A) (k : A → prog B) (w : world) :
  run (p ≫= k) w = run (k (run p w).1) (run p w).2.
Proof.
  revert w. induction p as [a|q h IH|place e p IH]; intros w; simpl.
  - done.
  - destruct (step q w) as [r w']. apply IH.
  - apply IH.
Qed.

Lemma step_fault q w e :
  next_fault (faults w) = Some e →
  step q w = (Err e, {| db := db w; faults := tail (faults w);
                        calls := calls w ++ [q]; log := log w |}).
Proof. unfold step. by intros ->. Qed.

Lemma step_exec q w :
  next_fault (faults w) = None →
  step q w = ((exec q (db w)).1,
              {| db := (exec q (db w)).2; faults := tail (faults w);
                 calls := calls w ++ [q]; log := log w |}).
Proof. unfold step. intros ->. by destruct (exec q (db w)). Qed.

End run_facts.

(** ** Proof automation for handler runs *)

(** Evaluation of closed decidable statements. *)
Ltac by_evaluation :=
  apply (bool_decide_unpack _); vm_compute; exact I.

(** Unfolding a handler down to its first statement. *)
Ltac run_handler :=
  unfold trace_of;
  cbn [run mbind prog_bind bind call handleErr console_error mret prog_ret fst snd].

Ltac run_step :=
  match goal with
  | |- context [step ?q ?w] =>
      let Hs := fresh "Hstep" in
      let fs := eval cbn [faults] in (faults w) in
      destruct (next_fault fs) as [?e|] eqn:Hs;
      [rewrite (step_fault q w _ Hs) | rewrite (step_exec q w Hs)];
      cbn [run mbind prog_bind bind call handleErr console_error mret prog_ret
           fst snd exec db faults calls log]
  end.

Section select_facts.

Lemma filter_no_filters (rs : list obj) :
  filter (λ r, row_matches [] r) rs = rs.
Proof.
  induction rs as [|r rs IH]; [done|].
  rewrite filter_cons, decide_True by done. by rewrite IH.
Qed.

Lemma select_listing (d : database) :
  run_select (rows (users d)) Star [] (Some ("order", true)) None = listing d.
Proof.
  unfold run_select, listing. rewrite filter_no_filters. simpl.
  apply list_fmap_id.
Qed.

Lemma listing_perm d : listing d ≡ₚ rows (users d).
Proof. apply sort_by_perm. Qed.

Lemma listing_sorted d :
  StronglySorted (λ r1 r2 : obj, cell_le (r1 !! "order") (r2 !! "order") = true)
    (listing d).
Proof.
  apply (sort_by_sorted (row_le "order" true)).
  - apply row_le_total.
  - apply row_le_trans.
Qed.

End select_facts.

(** ** The claims *)

(** C6 (the code departs from the claim): the path identifier ["0"] parses
    as the number zero, yet the handlers pass it on as the string ["0"],
    because zero is falsy on the left of [||]. *)
Theorem parse_id_zero_stays_text :
  Number "0" = Fin 0%Qc ∧ parse_id "0" = VStr "0".
Proof. split; by_evaluation. Qed.

(** The part of the conversion that does hold: a truthy number is passed
    as a number, and what is not a number is passed as the string. *)
Lemma parse_id_number (param : string) :
  num_truthy (Number param) = true → parse_id param = VNum (Number param).
Proof. unfold parse_id. by intros ->. Qed.

Lemma parse_id_text (param : string) :
  Number param = NaN → parse_id param = VStr param.
Proof. unfold parse_id. by intros ->. Qed.

(** The two handlers are different programs: they log different places. *)
Lemma put_patch_users_log :
  log (run (put_users "1" None) (world_of empty_db [Some outage])).2
    = [("PUT /users update", outage)]
  ∧ log (run (patch_users "1" None) (world_of empty_db [Some outage])).2
    = [("PATCH /users update", outage)].
Proof. split; by vm_compute. Qed.

(** C7: PUT /users/:id and PATCH /users/:id are the same operation: on the
    same identifier, body and world they give the same response, leave the
    same store, and issue the same statements against the same remaining
    fault schedule; only the place named in the error log differs. *)
Theorem put_patch_users_same (param : string) (req_body : option obj) (w : world) :
  (run (put_users param req_body) w).1 = (run (patch_users param req_body) w).1
  ∧ db (run (put_users param req_body) w).2
      = db (run (patch_users param req_body) w).2
  ∧ calls (run (put_users param req_body) w).2
      = calls (run (patch_users param req_body) w).2
  ∧ faults (run (put_users param req_body) w).2
      = faults (run (patch_users param req_body) w).2.
Proof.
  unfold put_users, patch_users. run_handler.
  destruct (step _ w) as [[data|e] w']; simpl; done.
Qed.

(** *** POST /users *)

Lemma post_users_trace (req_body : option obj) (w : world) :
  trace_of (post_users req_body) w =
    match next_fault (faults w) with
    | Some _ => [max_order_query]
    | None =>
        [max_order_query;
         InsertSingle Users
           (new_user (default ∅ req_body) (computed_order (db w)))]
    end.
Proof.
  unfold post_users, max_order_query, computed_order. run_handler.
  run_step.
  - by rewrite drop_app_length.
  - run_step.
    + by rewrite <-(assoc_L app), drop_app_length.
    + destruct (run_insert _ _ _) as [[data|e] tb]; simpl;
        by rewrite <-(assoc_L app), drop_app_length.
Qed.

(** C10: in the payload POST /users inserts, [order] is the server-computed
    order whatever the body says, [id] is the body's (it is not stripped),
    and [checked] is the body's unless that is null or absent, in which case
    it is false. *)
Theorem post_users_payload (req_body : option obj) (w : world) :
  let body := default ∅ req_body in
  let payload := new_user body (computed_order (db w)) in
  trace_of (post_users req_body) w =
    match next_fault (faults w) with
    | Some _ => [max_order_query]
    | None => [max_order_query; InsertSingle Users payload]
    end
  ∧ payload !! "order" = Some (computed_order (db w))
  ∧ payload !! "id" = body !! "id"
  ∧ payload !! "checked" =
      Some match body !! "checked" with
           | None | Some VNull => VBool false
           | Some v => v
           end.
Proof.
  intros body payload. split; [apply post_users_trace|].
  unfold payload, new_user. repeat split.
  - by rewrite lookup_insert_ne, lookup_insert_eq.
  - by rewrite !lookup_insert_ne.
  - rewrite lookup_insert_eq. unfold nullish.
    by destruct (body !! "checked") as [[]|].
Qed.

(** *** DELETE /users/:id: the response *)

(** With the primary delete and the re-read successful, the request runs
    the loop on the listing of the remaining rows and answers success. *)
Lemma delete_users_run (param : string) (w : world) :
  next_fault (faults w) = None →
  next_fault (tail (faults w)) = None →
  run (delete_users param) w =
    (json JSuccess,
     (run (resequence 0 (listing (db (after_delete param w))))
        (after_delete param w)).2).
Proof.
  intros H1 H2. unfold delete_users, after_delete, id_filter. run_handler.
  rewrite (step_exec _ w H1).
  cbn [exec run_delete get_table set_table fst snd]. run_handler.
  match goal with |- context [step ?q ?w1] => rewrite (step_exec q w1 H2) end.
  cbn [exec fst snd get_table users db rows]. run_handler.
  rewrite run_bind. cbn [run mret prog_ret fst snd faults].
  unfold run_select. rewrite filter_no_filters. cbn [project].
  by rewrite list_fmap_id.
Qed.

(** C4 (amended): once the primary delete has succeeded, the response is
    [{success: true}] with status 200 exactly when the re-read succeeds
    too, whatever happens to the corrective updates; a failed re-read is
    answered 500. *)
Theorem delete_users_response (param : string) (w : world) :
  (run (delete_users param) w).1 =
    match next_fault (faults w) with
    | Some e => internal_error e
    | None =>
        match next_fault (tail (faults w)) with
        | Some e => internal_error e
        | None => json JSuccess
        end
    end.
Proof.
  destruct (next_fault (faults w)) as [e|] eqn:H1.
  { unfold delete_users. run_handler. by rewrite (step_fault _ w _ H1). }
  destruct (next_fault (tail (faults w))) as [e|] eqn:H2.
  - unfold delete_users. run_handler. rewrite (step_exec _ w H1).
    cbn [exec run_delete fst snd]. run_handler.
    match goal with |- context [step ?q ?w1] =>
      by rewrite (step_fault q w1 e H2) end.
  - by rewrite delete_users_run.
Qed.

(** C4, as stated, fails: the primary delete succeeds, the re-read fails,
    and the response is the 500 error. *)
Lemma delete_users_refetch_failure :
  let w := world_of empty_db [None; Some outage] in
  (step (Delete Users [("id", Some (parse_id "1"))]) w).1 = Ok ()
  ∧ (run (delete_users "1") w).1 = internal_error outage
  ∧ (run (delete_users "1") w).1 ≠ json JSuccess.
Proof. repeat split; by_evaluation. Qed.

(** *** GET /users *)

(** C9 (amended): GET /users answers 200 with all user records in
    ascending [order] when the store query succeeds, and the 500 error when
    it fails; it never changes the store. *)
Theorem get_users_response (w : world) :
  (run get_users w).1 =
    match next_fault (faults w) with
    | Some e => internal_error e
    | None => json (JRows (listing (db w)))
    end
  ∧ listing (db w) ≡ₚ rows (users (db w))
  ∧ StronglySorted
      (λ r1 r2 : obj, cell_le (r1 !! "order") (r2 !! "order") = true)
      (listing (db w))
  ∧ db (run get_users w).2 = db w.
Proof.
  split; [|split; [apply listing_perm|split; [apply listing_sorted|]]].
  - unfold get_users. run_handler. run_step; [done|].
    by rewrite select_listing.
  - unfold get_users. run_handler. by run_step.
Qed.

(** C9, as stated, fails: when the store query fails the status is 500. *)
Lemma get_users_store_failure :
  status (run get_users (world_of empty_db [Some outage])).1 ≠ 200%nat.
Proof. by_evaluation. Qed.

(** *** Identifiers that match no record *)

Lemma filter_none (f : obj → bool) (rs : list obj) :
  Forall (λ r, f r = false) rs → filter (λ r, f r) rs = [].
Proof.
  induction 1 as [|r rs Hr _ IH]; [done|].
  rewrite filter_cons, decide_False; [done|]. rewrite Hr. intros [].
Qed.

Lemma filter_not_none (f : obj → bool) (rs : list obj) :
  Forall (λ r, f r = false) rs → filter (λ r, ¬ f r) rs = rs.
Proof.
  induction 1 as [|r rs Hr _ IH]; [done|].
  rewrite filter_cons, decide_True; [by rewrite IH|]. rewrite Hr. intros [].
Qed.

Lemma set_get_table (t : table) (d : database) :
  set_table t (get_table t d) d = d.
Proof. by destruct t, d. Qed.

Lemma fault_free_next fs : fault_free fs → next_fault fs = None.
Proof. by destruct 1 as [|? ? ->]. Qed.

Lemma fault_free_tail fs : fault_free fs → fault_free (tail fs).
Proof. destruct 1; [constructor|done]. Qed.

(** C5 (amended): on an identifier that matches no record, PUT (and PATCH)
    answer the 500 error, the same shape a failing store gives, carrying the
    store's error; DELETE does not: when the store fails none of its
    statements it answers [{success: true}] with status 200, and DELETE
    /attendanceHistory/:id leaves the store as it was. *)
Theorem not_found_responses (t : table) (param : string)
    (req_body : option obj) (w : world) :
  no_match t param (db w) →
  match t with
  | Users =>
      (run (put_users param req_body) w).1
        = internal_error (default no_single_row (next_fault (faults w)))
      ∧ (run (patch_users param req_body) w).1
        = internal_error (default no_single_row (next_fault (faults w)))
      ∧ (fault_free (faults w) →
         (run (delete_users param) w).1 = json JSuccess)
  | AttendanceHistory =>
      (run (put_attendance param req_body) w).1
        = internal_error (default no_single_row (next_fault (faults w)))
      ∧ (fault_free (faults w) →
         (run (delete_attendance param) w).1 = json JSuccess
         ∧ db (run (delete_attendance param) w).2 = db w)
  end.
Proof.
  intros Hno. unfold no_match, id_filter in Hno.
  destruct t; cbn [get_table] in Hno.
  - repeat split.
    + unfold put_users. run_handler. run_step; [done|].
      unfold run_update_single. cbn [get_table].
      by rewrite (filter_none _ _ Hno).
    + unfold patch_users. run_handler. run_step; [done|].
      unfold run_update_single. cbn [get_table].
      by rewrite (filter_none _ _ Hno).
    + intros Hf. rewrite delete_users_run; [done|apply fault_free_next..].
      * exact Hf.
      * by apply fault_free_tail.
  - repeat split.
    + unfold put_attendance. run_handler. run_step; [done|].
      unfold run_update_single. cbn [get_table].
      by rewrite (filter_none _ _ Hno).
    + apply fault_free_next in H.
      unfold delete_attendance. run_handler. run_step; [by rewrite H in Hstep|].
      done.
    + apply fault_free_next in H.
      unfold delete_attendance. run_handler. run_step; [by rewrite H in Hstep|].
      unfold run_delete. cbn [get_table rows next_id fst snd].
      rewrite (filter_not_none _ _ Hno). by destruct (db w) as [[] []].
Qed.

Lemma roster_no_match : no_match Users "999" roster_db.
Proof. repeat constructor; by_evaluation. Defined.

Lemma attended_no_match : no_match AttendanceHistory "999" attended_db.
Proof. repeat constructor; by_evaluation. Defined.

Lemma not_found_responses_witness :
  let b := Some {[ "name" := VStr "zoe" ]} in
  let w1 := world_of roster_db [None; None] in
  let w2 := world_of attended_db [None] in
  (no_match Users "999" roster_db
   ∧ fault_free (faults w1)
   ∧ (run (put_users "999" b) w1).1 = internal_error no_single_row
   ∧ (run (patch_users "999" b) w1).1 = internal_error no_single_row
   ∧ (run (delete_users "999") w1).1 = json JSuccess)
  ∧ (no_match AttendanceHistory "999" attended_db
     ∧ fault_free (faults w2)
     ∧ (run (put_attendance "999" b) w2).1 = internal_error no_single_row
     ∧ (run (delete_attendance "999") w2).1 = json JSuccess
     ∧ db (run (delete_attendance "999") w2).2 = attended_db).
Proof.
  intros b w1 w2.
  assert (Hf1 : fault_free (faults w1)) by (by repeat constructor).
  assert (Hf2 : fault_free (faults w2)) by (by repeat constructor).
  split.
  - pose proof (not_found_responses Users "999" b w1 roster_no_match)
      as (Hput & Hpatch & Hdel).
    split; [exact roster_no_match|]. split; [exact Hf1|].
    split; [exact Hput|]. split; [exact Hpatch|]. exact (Hdel Hf1).
  - pose proof (not_found_responses AttendanceHistory "999" b w2
                  attended_no_match) as (Hput & Hdel).
    split; [exact attended_no_match|]. split; [exact Hf2|].
    split; [exact Hput|]. exact (Hdel Hf2).
Defined.

(** C5, as stated, fails: DELETE /attendanceHistory/999 on a store that
    holds a record, but none with that identifier, is answered 200
    [{success: true}], not the 500 error a failing store gives. *)
Lemma delete_missing_is_success :
  no_match AttendanceHistory "999" attended_db
  ∧ rows (attendanceHistory attended_db) ≠ []
  ∧ (run (delete_attendance "999") (world_of attended_db [])).1 = json JSuccess
  ∧ status (run (delete_attendance "999") (world_of attended_db [])).1
      ≠ 500%nat
  ∧ status (run (delete_attendance "999")
              (world_of attended_db [Some outage])).1 = 500%nat.
Proof. split; [exact attended_no_match|]. repeat split; by_evaluation. Qed.

(** *** POST /attendanceHistory *)

Lemma cell_matches_spec (c x : option value) :
  cell_matches c x = true ↔ ∃ v, v ≠ VNull ∧ c = Some v ∧ x = Some v.
Proof.
  split.
  - destruct c as [[]|], x as [xv|]; simpl; intros H; try discriminate H;
      apply bool_decide_eq_true in H; subst xv; eexists; by repeat split.
  - intros (v & Hv & -> & ->). destruct v; simpl; try done;
      by apply bool_decide_eq_true.
Qed.

(** A record is found exactly when it holds the body's three fields, all
    three being present and not null. *)
Lemma triple_matches (body r : obj) :
  row_matches (triple body) r = true ↔
    ∀ c, c ∈ ["date"; "group"; "day"] →
      ∃ v, v ≠ VNull ∧ r !! c = Some v ∧ body !! c = Some v.
Proof.
  unfold row_matches, triple. simpl. rewrite !andb_true_iff.
  rewrite !cell_matches_spec. split.
  - intros (Hd & Hg & Hy & _) c Hc.
    repeat (apply elem_of_cons in Hc as [->|Hc]; [done|]).
    by apply elem_of_nil in Hc.
  - intros H. repeat split; apply H; set_solver.
Qed.

(** C3 (amended): POST /attendanceHistory, case by case.  When the
    existence check fails the answer is the 500 error.  When it succeeds and
    finds a record with the body's (date, group, day), the answer is the 400
    domain error; in both cases no insert is issued and the store is as it
    was.  When it succeeds and finds none, the body is passed unchanged to
    the insert; a successful insert is answered 201 with the stored record
    (the body, with the identifier the store gave it), a failed one 500. *)
Theorem post_attendance_cases (req_body : option obj) (w : world) :
  let body := default ∅ req_body in
  let resp := (run (post_attendance req_body) w).1 in
  let w' := (run (post_attendance req_body) w).2 in
  match next_fault (faults w) with
  | Some e =>
      resp = internal_error e ∧ db w' = db w
      ∧ trace_of (post_attendance req_body) w = [exists_query body]
  | None =>
      match duplicates body (db w) with
      | _ :: _ =>
          resp = duplicate_attendance ∧ db w' = db w
          ∧ trace_of (post_attendance req_body) w = [exists_query body]
      | [] =>
          trace_of (post_attendance req_body) w
            = [exists_query body; InsertSingle AttendanceHistory body]
          ∧ match next_fault (tail (faults w)) with
            | Some e => resp = internal_error e ∧ db w' = db w
            | None =>
                (∃ data,
                    resp = {| status := 201; body := JRow data |}
                    ∧ delete "id" data = delete "id" body
                    ∧ rows (attendanceHistory (db w'))
                        = rows (attendanceHistory (db w)) ++ [data]
                    ∧ users (db w') = users (db w))
                ∨ (resp = internal_error constraint_violation ∧ db w' = db w)
            end
      end
  end.
Proof.
  intros body resp w'. subst resp w'.
  unfold post_attendance, exists_query, duplicates. fold body. run_handler.
  run_step.
  { by rewrite drop_app_length. }
  unfold run_select. cbn [get_table].
  fold (triple body).
  destruct (filter _ (rows (attendanceHistory (db w)))) as [|r rs] eqn:Hdup.
  - cbn [fmap list_fmap length Nat.ltb Nat.leb]. run_handler. run_step.
    + split; [by rewrite <-(assoc_L app), drop_app_length|]. done.
    + unfold run_insert. cbn [get_table].
      destruct (body !! "id") as [v|] eqn:Hid.
      * destruct (constraints_ok _ _); simpl.
        -- split; [by rewrite <-(assoc_L app), drop_app_length|].
           left. exists body. repeat split.
        -- split; [by rewrite <-(assoc_L app), drop_app_length|].
           right. split; [done|]. by destruct (db w) as [[] []].
      * destruct (constraints_ok _ _); simpl.
        -- split; [by rewrite <-(assoc_L app), drop_app_length|].
           left. eexists. repeat split. by rewrite delete_insert_eq.
        -- split; [by rewrite <-(assoc_L app), drop_app_length|].
           right. split; [done|]. by destruct (db w) as [[] []].
  - simpl. by rewrite drop_app_length.
Qed.

(** C3, as stated, fails twice over.  The body's triple is that of an
    existing record, the existence check itself fails, and the answer is
    500, not 400.  And a body whose triple no record has is passed to the
    insert, the insert fails, and the answer is 500, not 201. *)
Lemma post_attendance_store_failure :
  let body : obj := delete "id" monday in
  let other : obj := <["day" := VStr "Tuesday"]> body in
  (row_matches (triple body) monday = true
   ∧ monday ∈ rows (attendanceHistory attended_db)
   ∧ status (run (post_attendance (Some body))
               (world_of attended_db [Some outage])).1 = 500%nat)
  ∧ (duplicates other attended_db = []
     ∧ status (run (post_attendance (Some other))
                 (world_of attended_db [None; Some outage])).1 = 500%nat).
Proof.
  split; [split; [by vm_compute|split; [by left|by_evaluation]]|].
  split; by_evaluation.
Qed.

(** *** PUT and PATCH /users/:id: what an update may change *)

Lemma field_frame_refl body param r : field_frame body param r r.
Proof. unfold field_frame. auto. Qed.

Lemma field_frame_update (body : obj) param (r : obj) :
  field_frame body param r
    (if row_matches (id_filter param) r then delete "id" body ∪ r else r).
Proof.
  destruct (row_matches _ r) eqn:Hm; [|apply field_frame_refl].
  repeat split.
  - apply lookup_union_r, lookup_delete_eq.
  - intros k Hk. apply lookup_union_r. by rewrite lookup_delete_None; right.
  - intros Hm'. congruence.
  - right. intros k v Hk Hv. apply lookup_union_Some_l.
    by rewrite lookup_delete_ne.
Qed.

Lemma update_single_frame (body : obj) param (d : database) :
  update_frame body param d
    (exec (UpdateSingle Users (delete "id" body) (id_filter param)) d).2.
Proof.
  unfold update_frame. cbn [exec]. unfold run_update_single. cbn [get_table].
  destruct (filter _ _) as [|r [|]]; simpl;
    try (repeat split; apply Forall_Forall2_diag, Forall_true, field_frame_refl).
  destruct (constraints_ok _ _); simpl;
    [|repeat split; apply Forall_Forall2_diag, Forall_true, field_frame_refl].
  repeat split. unfold apply_update.
  apply Forall2_fmap_r, Forall_Forall2_diag, Forall_true.
  intros r0. apply field_frame_update.
Qed.

Lemma update_frame_refl body param d : update_frame body param d d.
Proof.
  repeat split. apply Forall_Forall2_diag, Forall_true, field_frame_refl.
Qed.

(** C8: PUT and PATCH /users/:id change nothing but the supplied fields of
    the matched record: the identifier of every record is kept even when the
    body carries an [id] (it is stripped from the update), every field the
    body does not supply is kept, records the identifier does not match are
    kept whole, and a record that did change holds the supplied fields. *)
Theorem users_update_frame (param : string) (req_body : option obj) (w : world) :
  let body := default ∅ req_body in
  strip_id req_body !! "id" = None
  ∧ trace_of (put_users param req_body) w
      = [UpdateSingle Users (strip_id req_body) (id_filter param)]
  ∧ trace_of (patch_users param req_body) w
      = [UpdateSingle Users (strip_id req_body) (id_filter param)]
  ∧ update_frame body param (db w) (db (run (put_users param req_body) w).2)
  ∧ update_frame body param (db w) (db (run (patch_users param req_body) w).2).
Proof.
  intros body. split; [apply lookup_delete_eq|].
  unfold put_users, patch_users, strip_id, id_filter. fold body.
  split; [|split; [|split]]; run_handler.
  - run_step; [by rewrite drop_app_length|].
    destruct (run_update_single _ _ _ _) as [[data|e] tb]; simpl;
      by rewrite drop_app_length.
  - run_step; [by rewrite drop_app_length|].
    destruct (run_update_single _ _ _ _) as [[data|e] tb]; simpl;
      by rewrite drop_app_length.
  - destruct (next_fault (faults w)) as [e|] eqn:Hs.
    + rewrite (step_fault _ w _ Hs). apply update_frame_refl.
    + rewrite (step_exec _ w Hs).
      pose proof (update_single_frame body param (db w)) as Hf.
      unfold id_filter in Hf.
      by destruct (exec _ (db w)) as [[data|e] d'].
  - destruct (next_fault (faults w)) as [e|] eqn:Hs.
    + rewrite (step_fault _ w _ Hs). apply update_frame_refl.
    + rewrite (step_exec _ w Hs).
      pose proof (update_single_frame body param (db w)) as Hf.
      unfold id_filter in Hf.
      by destruct (exec _ (db w)) as [[data|e] d'].
Qed.

(** *** Rounding to a double: the integers that are kept *)

Lemma round_half_even_exact (m d : Z) :
  (0 < d)%Z → round_half_even (m * d) d = m.
Proof.
  intros Hd. unfold round_half_even.
  rewrite Z.mod_mul, Z.div_mul by lia.
  by rewrite (proj2 (Z.ltb_lt _ _)) by lia.
Qed.

Lemma round_half_even_one (n : Z) : round_half_even n 1 = n.
Proof. rewrite <-(Z.mul_1_r n) at 1. by apply round_half_even_exact. Qed.

Lemma safe_not_overflow : (2 ^ 53 < 2 ^ 1024)%Z.
Proof. reflexivity. Qed.

Lemma to_double_zero : to_double (Qc_of_Z 0) = Fin 0%Qc.
Proof. reflexivity. Qed.

(** Every integer up to [2^53] is a double. *)
Lemma to_double_integer (z : Z) :
  (0 < z ≤ 2 ^ 53)%Z → to_double (Qc_of_Z z) = Fin (Qc_of_Z z).
Proof.
  intros [Hpos Hsafe]. unfold to_double.
  cbn [Qc_of_Z this inject_Z Qnum Qden].
  rewrite Z.abs_eq by lia.
  rewrite (proj2 (Z.eqb_neq _ _)) by lia.
  rewrite (proj2 (Z.ltb_ge _ _)) by lia.
  pose proof (Z.log2_spec z Hpos) as [Hlo Hhi].
  pose proof (Z.log2_nonneg z) as He0.
  assert (Z.log2 z ≤ 53)%Z as He53.
  { rewrite <-(Z.log2_pow2 53) by lia. by apply Z.log2_le_mono. }
  assert (Hfl : floor_log2 z 1 = Z.log2 z).
  { unfold floor_log2. change (Z.log2 1) with 0. rewrite Z.sub_0_r.
    rewrite (proj2 (Z.leb_le 0 _)) by done.
    by rewrite Z.mul_1_l, (proj2 (Z.leb_le _ _) Hlo). }
  rewrite Hfl, Z.max_l by lia. rewrite Z.mul_1_l.
  destruct (Z.leb_spec 0 (Z.log2 z - 52)) as [Hk|Hk].
  - assert (Z.log2 z = 52 ∨ Z.log2 z = 53) as [He|He] by lia; rewrite He in *.
    + change (52 - 52) with 0. change (2 ^ 0) with 1.
      rewrite round_half_even_one, !Z.mul_1_r.
      rewrite (proj2 (Z.leb_gt _ _)); [done|].
      pose proof safe_not_overflow. lia.
    + assert (z = 2 ^ 53) as -> by (apply Z.le_antisymm; done).
      reflexivity.
  - set (j := - (Z.log2 z - 52)). assert (0 < j)%Z by lia.
    assert (0 < 2 ^ j)%Z by (apply Z.pow_pos_nonneg; lia).
    rewrite round_half_even_one.
    f_equal. apply Qc_is_canon. simpl. rewrite Qred_correct.
    unfold Qeq. simpl. rewrite Z2Pos.id by done. ring.
Qed.

(** *** POST /users: the order of the new record *)

Lemma last_order_numeric (M : Qc) :
  or_else (Some (VNum (Fin M))) (VNum (num_of_Z 0)) = VNum (Fin M).
Proof.
  unfold or_else. simpl. destruct (decide (M = 0%Qc)) as [->|Hne].
  - rewrite bool_decide_eq_true_2 by done. simpl.
    unfold num_of_Z. by rewrite Z2Qc_inj_0.
  - by rewrite bool_decide_eq_false_2.
Qed.

Lemma computed_order_max (d : database) (M : Qc) :
  current_max d M → computed_order d = VNum (to_double (M + 1)%Qc).
Proof.
  intros [Hempty|M' [(rM & HrM & HM) Hle]]; unfold computed_order, run_select.
  { rewrite Hempty. simpl. unfold num_of_Z. by rewrite Z2Qc_inj_0. }
  rewrite filter_no_filters.
  pose proof (sort_by_perm (row_le "order" false) (rows (users d))) as Hperm.
  pose proof (sort_by_sorted (row_le "order" false)
                (row_le_total "order" false) (row_le_trans "order" false)
                (rows (users d))) as Hsorted.
  destruct (sort_by _ _) as [|r0 rest].
  { apply Permutation_nil_l in Hperm. rewrite <-Hperm in HrM.
    by apply elem_of_nil in HrM. }
  assert (r0 ∈ rows (users d)) as Hr0 by (rewrite <-Hperm; left).
  destruct (Hle r0 Hr0) as (q0 & Hq0 & Hq0M).
  assert (q0 = M') as ->.
  { apply Qcle_antisym; [done|].
    rewrite <-Hperm in HrM. apply elem_of_cons in HrM as [->|Hin].
    - rewrite HM in Hq0. injection Hq0 as ->. apply Qcle_refl.
    - apply StronglySorted_inv in Hsorted as [_ Hhd].
      rewrite Forall_forall in Hhd. specialize (Hhd rM Hin).
      unfold row_le in Hhd. rewrite HM, Hq0 in Hhd. simpl in Hhd.
      by apply bool_decide_eq_true in Hhd. }
  cbn [take fmap list_fmap head]. unfold last_order. simpl.
  rewrite Hq0. simpl. rewrite lookup_singleton_eq.
  by rewrite last_order_numeric.
Qed.

Lemma computed_order_empty (d : database) :
  rows (users d) = [] → computed_order d = VNum (num_of_Z 1).
Proof.
  intros H. rewrite (computed_order_max d 0%Qc) by by constructor.
  rewrite Qcplus_0_l, <-Z2Qc_inj_1. by rewrite to_double_integer.
Qed.

(** C2, the counterexample: with the one record of [crowded_db] the
    greatest order is [2^53]; POST /users answers 201 with a record whose
    order is [2^53] again, not [2^53 + 1], because [lastOrder + 1] is a
    sum of doubles and [2^53 + 1] is not one. *)
Lemma post_users_order_rounds :
  let data : obj :=
    <["id" := VNum (num_of_Z 2)]>
      (new_user {[ "name" := VStr "amy" ]} (VNum (num_of_Z (2 ^ 53)))) in
  current_max crowded_db (Qc_of_Z (2 ^ 53))
  ∧ (run (post_users (Some {[ "name" := VStr "amy" ]}))
       (world_of crowded_db [])).1
      = {| status := 201; body := JRow data |}
  ∧ data !! "order" = Some (VNum (Fin (Qc_of_Z (2 ^ 53))))
  ∧ data !! "order" ≠ Some (VNum (Fin (Qc_of_Z (2 ^ 53) + 1)%Qc)).
Proof.
  intros data. split.
  { apply current_max_order. split.
    - exists (user 1 (2 ^ 53) "zed"). split; [left|reflexivity].
    - intros r Hr. cbn [crowded_db users rows] in Hr.
      apply elem_of_cons in Hr as [->|Hr]; [|by apply elem_of_nil in Hr].
      exists (Qc_of_Z (2 ^ 53)). split; [reflexivity|apply Qcle_refl]. }
  split; [by_evaluation|]. split; by_evaluation.
Qed.

(** C2, amended: POST /users gives the new record the order [M + 1], where
    [M] is the greatest order among the user records, or 0 when there are
    none, provided [M] is a double and [M + 1] is one too (as for every
    integer from 0 to [2^53 - 1]): that is the order of the payload it
    inserts, and of the record stored and returned when the insert
    succeeds.  Nothing is inserted when a statement of the request
    fails. *)
Theorem post_users_order (req_body : option obj) (w : world) (M : Qc) :
  current_max (db w) M →
  to_double M = Fin M →
  to_double (M + 1)%Qc = Fin (M + 1)%Qc →
  let resp := (run (post_users req_body) w).1 in
  let w' := (run (post_users req_body) w).2 in
  let new := VNum (Fin (M + 1)%Qc) in
  match next_fault (faults w) with
  | Some e => resp = internal_error e ∧ db w' = db w
  | None =>
      (∃ payload,
          trace_of (post_users req_body) w
            = [max_order_query; InsertSingle Users payload]
          ∧ payload !! "order" = Some new)
      ∧ ((∃ data,
            resp = {| status := 201; body := JRow data |}
            ∧ data !! "order" = Some new
            ∧ rows (users (db w')) = rows (users (db w)) ++ [data])
         ∨ (∃ e, resp = internal_error e ∧ db w' = db w))
  end.
Proof.
  intros Hmax _ Hsucc resp w' new. subst resp w'.
  pose proof (post_users_trace req_body w) as Htrace.
  apply computed_order_max in Hmax. rewrite Hsucc in Hmax. fold new in Hmax.
  unfold computed_order in Hmax.
  destruct (next_fault (faults w)) as [e|] eqn:Hs.
  { unfold post_users. run_handler. by rewrite (step_fault _ w _ Hs). }
  split.
  { eexists. split; [exact Htrace|]. unfold new_user, computed_order.
    rewrite lookup_insert_ne, lookup_insert_eq by done. by rewrite Hmax. }
  unfold post_users. run_handler. rewrite (step_exec _ w Hs).
  cbn [exec fst snd get_table]. rewrite Hmax. run_handler. run_step.
  { right. by eexists. }
  unfold run_insert. cbn [get_table].
  assert (∀ b : obj, new_user b new !! "order" = Some new) as Hord.
  { intros b. unfold new_user. by rewrite lookup_insert_ne, lookup_insert_eq. }
  destruct (new_user _ _ !! "id") as [v|] eqn:Hid.
  - destruct (constraints_ok _ _); simpl.
    + left. eexists. by repeat split.
    + right. eexists. split; [done|]. by destruct (db w) as [[] []].
  - destruct (constraints_ok _ _); simpl.
    + left. eexists. repeat split. by rewrite lookup_insert_ne.
    + right. eexists. split; [done|]. by destruct (db w) as [[] []].
Qed.

(** *** DELETE /users/:id: the re-sequencing *)

Lemma forallb_Forall {A : Type} (f : A → bool) (l : list A) :
  forallb f l = true ↔ Forall (λ x, f x = true) l.
Proof.
  induction l as [|x l IH]; simpl.
  - split; [constructor|done].
  - rewrite andb_true_iff, Forall_cons, IH. done.
Qed.

Lemma constraints_ok_spec (t : table) (rs : list obj) :
  constraints_ok t rs = true ↔ table_ok t rs.
Proof.
  unfold constraints_ok, table_ok, ids.
  rewrite !andb_true_iff, forallb_Forall, bool_decide_eq_true.
  destruct t.
  - rewrite forallb_Forall. split.
    + intros [[? ?] ?]. auto.
    + intros (? & ? & Hn). auto.
  - split.
    + intros [[? ?] _]. repeat split; [done..|]. discriminate.
    + intros (? & ? & _). auto.
Qed.

Lemma table_ok_perm (t : table) (l1 l2 : list obj) :
  l1 ≡ₚ l2 → table_ok t l1 → table_ok t l2.
Proof.
  unfold table_ok, ids. intros Hp (H1 & H2 & H3).
  split; [by rewrite <-Hp|]. split; [by rewrite <-Hp|].
  intros Ht. rewrite <-Hp. auto.
Qed.

Lemma Forall_filter_keep {A : Type} (P Q : A → Prop) `{!∀ x, Decision (P x)}
    (l : list A) :
  Forall Q l → Forall Q (filter P l).
Proof.
  rewrite !Forall_forall. intros HQ x [_ Hx]%list_elem_of_filter. auto.
Qed.

Lemma table_ok_filter (t : table) (P : obj → Prop) `{!∀ r, Decision (P r)}
    (rs : list obj) :
  table_ok t rs → table_ok t (filter P rs).
Proof.
  unfold table_ok, ids. intros (H1 & H2 & H3).
  split; [by apply Forall_filter_keep|].
  split.
  - eapply sublist_NoDup; [exact H2|]. apply fmap_sublist, sublist_filter.
  - intros Ht. by apply Forall_filter_keep, H3.
Qed.

Lemma renumber_length i all : length (renumber i all) = length all.
Proof. revert i. induction all as [|r all IH]; intros i; simpl; auto. Qed.

Lemma renumber_lookup i all j :
  renumber i all !! j
    = (λ r : obj, <["order" := VNum (num_of_nat (i + j + 1))]> r) <$> all !! j.
Proof.
  revert i j. induction all as [|r all IH]; intros i [|j]; simpl; try done.
  - by rewrite Nat.add_0_r.
  - rewrite IH. by replace (S i + j)%nat with (i + S j)%nat by lia.
Qed.

Lemma renumber_elem i all x :
  x ∈ renumber i all →
  ∃ j, renumber i all !! j = Some x
       ∧ x !! "order" = Some (VNum (num_of_nat (i + j + 1))).
Proof.
  intros (j & Hj)%list_elem_of_lookup. exists j. split; [done|].
  rewrite renumber_lookup in Hj. destruct (all !! j); [|done].
  injection Hj as <-. by rewrite lookup_insert_eq.
Qed.

Lemma renumber_ids i all : ids (renumber i all) = ids all.
Proof.
  revert i. induction all as [|r all IH]; intros i; simpl; [done|].
  unfold ids in *. simpl. by rewrite IH, lookup_insert_ne.
Qed.

Lemma renumber_orders i all :
  (λ r : obj, r !! "order") <$> renumber i all
    = (λ n, Some (VNum (num_of_nat n))) <$> seq (i + 1) (length all).
Proof.
  revert i. induction all as [|r all IH]; intros i; simpl; [done|].
  rewrite lookup_insert_eq, IH. by replace (S i + 1)%nat with (S (i + 1)) by lia.
Qed.

Lemma renumber_delete_order i all :
  delete "order" <$> renumber i all = delete "order" <$> all.
Proof.
  revert i. induction all as [|r all IH]; intros i; simpl; [done|].
  by rewrite delete_insert_eq, IH.
Qed.

Lemma num_of_nat_le (a b : nat) :
  num_le (num_of_nat a) (num_of_nat b) = true ↔ (a ≤ b)%nat.
Proof.
  unfold num_of_nat, num_of_Z. simpl. rewrite bool_decide_eq_true.
  rewrite <-Z2Qc_inj_le. lia.
Qed.

Lemma renumber_sorted i all :
  StronglySorted (λ a b, row_le "order" true a b = true) (renumber i all).
Proof.
  revert i. induction all as [|r all IH]; intros i; simpl; constructor.
  - apply IH.
  - apply Forall_forall. intros x (j & _ & Hx)%renumber_elem.
    unfold row_le. rewrite lookup_insert_eq, Hx. simpl.
    apply num_of_nat_le. lia.
Qed.

(** Rows of the renumbered list are told apart by their order. *)
Lemma renumber_order_inj i all x1 x2 :
  x1 ∈ renumber i all → x2 ∈ renumber i all →
  row_le "order" true x1 x2 = true → row_le "order" true x2 x1 = true →
  x1 = x2.
Proof.
  intros (j1 & Hj1 & Ho1)%renumber_elem (j2 & Hj2 & Ho2)%renumber_elem.
  unfold row_le. rewrite Ho1, Ho2. simpl.
  intros H12%num_of_nat_le H21%num_of_nat_le.
  assert (j1 = j2) as -> by lia. congruence.
Qed.

Lemma sort_by_renumbered (l : list obj) i all :
  l ≡ₚ renumber i all →
  sort_by (row_le "order" true) l = renumber i all.
Proof.
  intros Hperm.
  apply (StronglySorted_unique_strong (λ a b, row_le "order" true a b = true)).
  - intros x1 x2 Hx1 Hx2. apply (renumber_order_inj i all); [|done].
    by rewrite <-Hperm, <-(sort_by_perm (row_le "order" true) l).
  - apply sort_by_sorted; [apply row_le_total|apply row_le_trans].
  - apply renumber_sorted.
  - by rewrite sort_by_perm.
Qed.

(** An update by the identifier of a row of a keyed table rewrites that
    row and no other. *)
Lemma cell_matches_self (r : obj) :
  has_pk r = true → cell_matches (r !! "id") (r !! "id") = true.
Proof.
  unfold has_pk. intros Hpk. apply cell_matches_spec.
  destruct (r !! "id") as [v|]; [|done]. exists v.
  repeat split. by intros ->.
Qed.

Lemma fmap_fixed {A : Type} (f : A → A) (l : list A) :
  Forall (λ x, f x = x) l → f <$> l = l.
Proof.
  induction 1 as [|x l Hx _ IH]; [done|]. by rewrite fmap_cons, Hx, IH.
Qed.

Lemma apply_update_at (u row : obj) (l1 l2 : list obj) :
  has_pk row = true → NoDup (ids (l1 ++ row :: l2)) →
  apply_update u [("id", row !! "id")] (l1 ++ row :: l2)
    = l1 ++ (u ∪ row) :: l2.
Proof.
  intros Hpk Hnd. unfold ids in Hnd. rewrite fmap_app, fmap_cons in Hnd.
  apply NoDup_app in Hnd as (_ & Hl1 & [Hl2 _]%NoDup_cons).
  assert (Hother : ∀ r : obj, r !! "id" ≠ row !! "id" →
    (if row_matches [("id", row !! "id")] r then u ∪ r else r) = r).
  { intros r Hne. unfold row_matches. simpl.
    destruct (cell_matches _ _) eqn:Hc; [|done].
    apply cell_matches_spec in Hc as (v & _ & ? & ?). congruence. }
  unfold apply_update. rewrite fmap_app, fmap_cons.
  unfold row_matches at 2. simpl. rewrite cell_matches_self by done. simpl.
  f_equal; [|f_equal]; apply fmap_fixed, Forall_forall; intros r Hr;
    apply Hother; intros Heq.
  - apply (Hl1 (r !! "id")); [by apply list_elem_of_fmap_2|].
    rewrite Heq. left.
  - apply Hl2. rewrite <-Heq. by apply list_elem_of_fmap_2.
Qed.

Lemma table_ok_set_order (l1 l2 : list obj) (row : obj) (n : nat) :
  table_ok Users (l1 ++ row :: l2) →
  table_ok Users (l1 ++ <["order" := VNum (num_of_nat n)]> row :: l2).
Proof.
  unfold table_ok, ids. rewrite !fmap_app, !fmap_cons, !Forall_app, !Forall_cons.
  rewrite lookup_insert_ne by done.
  intros ((? & Hpk & ?) & ? & Hnum). destruct (Hnum eq_refl) as (? & ? & ?).
  repeat split; try done.
  - unfold has_pk in *. by rewrite lookup_insert_ne.
  - unfold numeric_order. by rewrite lookup_insert_eq.
Qed.

Lemma strict_eq_num_order (row : obj) (n : nat) :
  strict_eq_num (row !! "order") (num_of_nat n) = true →
  <["order" := VNum (num_of_nat n)]> row = row.
Proof.
  unfold strict_eq_num. intros H. apply insert_id.
  destruct (row !! "order") as [[| |x|]|]; try done.
  destruct x; try done; simpl in H; apply bool_decide_eq_true in H;
    by rewrite H.
Qed.

(** The loop, from any point: with the rows [done] already renumbered and
    [rest] still to go, it ends with all of them renumbered. *)
Lemma resequence_run (rest : list obj) :
  ∀ (i : nat) (w : world) (done_ : list obj),
    fault_free (faults w) →
    rows (users (db w)) ≡ₚ done_ ++ rest →
    table_ok Users (done_ ++ rest) →
    let w' := (run (resequence i rest) w).2 in
    rows (users (db w')) ≡ₚ done_ ++ renumber i rest
    ∧ table_ok Users (done_ ++ renumber i rest)
    ∧ attendanceHistory (db w') = attendanceHistory (db w)
    ∧ next_id (users (db w')) = next_id (users (db w)).
Proof.
  induction rest as [|row rest IH]; intros i w done_ Hff Hrows Hok; [done|].
  cbn [resequence renumber]. cbv zeta. rewrite run_bind.
  set (n := (i + 1)%nat).
  set (row' := <["order" := VNum (num_of_nat n)]> row).
  assert (Hok' : table_ok Users ((done_ ++ [row']) ++ rest)).
  { rewrite <-(assoc_L app). by apply table_ok_set_order. }
  assert (Hgoal : ∀ w1 : world,
    fault_free (faults w1) →
    rows (users (db w1)) ≡ₚ (done_ ++ [row']) ++ rest →
    attendanceHistory (db w1) = attendanceHistory (db w) →
    next_id (users (db w1)) = next_id (users (db w)) →
    let w' := (run (resequence (S i) rest) w1).2 in
    rows (users (db w')) ≡ₚ done_ ++ row' :: renumber (S i) rest
    ∧ table_ok Users (done_ ++ row' :: renumber (S i) rest)
    ∧ attendanceHistory (db w') = attendanceHistory (db w)
    ∧ next_id (users (db w')) = next_id (users (db w))).
  { intros w1 Hff1 Hrows1 Hatt1 Hnid1.
    destruct (IH (S i) w1 (done_ ++ [row']) Hff1 Hrows1 Hok')
      as (H1 & H2 & H3 & H4).
    rewrite <-(assoc_L app) in H1, H2. simpl in H1, H2.
    cbv zeta. split; [exact H1|]. split; [exact H2|]. split; congruence. }
  destruct (strict_eq_num (row !! "order") (num_of_nat n)) eqn:Heq; simpl.
  - apply Hgoal; try done.
    subst row'. rewrite (strict_eq_num_order _ _ Heq).
    by rewrite <-(assoc_L app).
  - rewrite (step_exec _ w (fault_free_next _ Hff)).
    cbn [exec run fst snd get_table]. unfold run_update.
    assert (Hupd : apply_update {["order" := VNum (num_of_nat n)]}
                     [("id", row !! "id")] (rows (users (db w)))
                   ≡ₚ (done_ ++ [row']) ++ rest).
    { unfold apply_update. rewrite Hrows. fold (apply_update
        {["order" := VNum (num_of_nat n)]} [("id", row !! "id")] (done_ ++ row :: rest)).
      destruct Hok as (Hpk & Hnd & _).
      rewrite apply_update_at; [|by apply Forall_app in Hpk as [_ [? _]%Forall_cons]|done].
      by rewrite <-insert_union_singleton_l, <-(assoc_L app). }
    rewrite (proj2 (constraints_ok_spec Users _)); simpl.
    + apply Hgoal; simpl; try done. by apply fault_free_tail.
    + eapply table_ok_perm; [symmetry; exact Hupd|done].
Qed.

Lemma exec_valid (q : query) (d : database) : valid d → valid (exec q d).2.
Proof.
  intros [Hu Ha]. destruct q as [t ? ? ? ?|t p|t u f|t u f|t f]; simpl; [done|..].
  - unfold run_insert.
    destruct (p !! "id"); destruct (constraints_ok _ _) eqn:Hc; simpl;
      try (by rewrite set_get_table);
      apply constraints_ok_spec in Hc; by destruct t.
  - unfold run_update_single.
    destruct (filter _ _) as [|r [|]]; simpl; try by rewrite set_get_table.
    destruct (constraints_ok _ _) eqn:Hc; simpl;
      [|by rewrite set_get_table].
    apply constraints_ok_spec in Hc. by destruct t.
  - unfold run_update.
    destruct (constraints_ok _ _) eqn:Hc; simpl;
      [|by rewrite set_get_table].
    apply constraints_ok_spec in Hc. by destruct t.
  - destruct t; simpl; split; try done; by apply table_ok_filter.
Qed.

(** Every program keeps a valid database valid, whatever fails: the
    hypothesis of the next theorem holds after any sequence of requests on
    the empty database. *)
Lemma run_valid {A : Type} (p : prog A) (w : world) :
  valid (db w) → valid (db (run p w).2).
Proof.
  revert w. induction p as [a|q k IH|place e p IH]; intros w Hv; simpl.
  - done.
  - destruct (step q w) as [r w1] eqn:Hs. apply IH.
    unfold step in Hs. destruct (next_fault (faults w)).
    + by injection Hs as _ <-.
    + pose proof (exec_valid q (db w) Hv) as Hv'.
      destruct (exec q (db w)). by injection Hs as _ <-.
  - by apply IH.
Qed.

Lemma empty_db_valid : valid empty_db.
Proof. repeat split; try constructor. Qed.

(** C1: a DELETE /users/:id request all of whose statements succeed, on a
    database that satisfies the constraints of the tables, answers
    [{success: true}] and leaves the user records listed in the order they
    were listed in before, the deleted one removed, with [order] equal to
    the position in the list counted from 1: the orders are exactly
    1, ..., N for the N remaining records, and nothing else of a record
    changed. *)
Theorem delete_users_resequences (param : string) (w : world) :
  valid (db w) →
  fault_free (faults w) →
  let w' := (run (delete_users param) w).2 in
  let survivors :=
    filter (λ r, ¬ row_matches (id_filter param) r) (listing (db w)) in
  (run (delete_users param) w).1 = json JSuccess
  ∧ listing (db w') = renumber 0 survivors
  ∧ (λ r : obj, r !! "order") <$> listing (db w')
      = (λ n, Some (VNum (num_of_nat n)))
          <$> seq 1 (length (rows (users (db w'))))
  ∧ delete "order" <$> listing (db w') = delete "order" <$> survivors
  ∧ length (rows (users (db w'))) = length survivors.
Proof.
  intros [Hu _] Hff w' survivors.
  pose proof (delete_users_run param w (fault_free_next _ Hff)
                (fault_free_next _ (fault_free_tail _ Hff))) as Hrun.
  split; [by rewrite Hrun|].
  assert (Hlist : listing (db w') = renumber 0 survivors).
  { subst w' survivors. rewrite Hrun. cbn [snd].
    set (w2 := after_delete param w).
    set (all := listing (db w2)).
    destruct (resequence_run all 0 w2 []) as (Hrows & _).
    { by apply fault_free_tail, fault_free_tail. }
    { symmetry. apply listing_perm. }
    { eapply table_ok_perm; [symmetry; apply listing_perm|].
      by apply table_ok_filter. }
    simpl in Hrows.
    transitivity (renumber 0 all);
      [apply sort_by_renumbered; exact Hrows|].
    f_equal. subst all w2. unfold listing, after_delete. cbn [db users rows].
    symmetry. apply filter_sort_by; [apply row_le_total|apply row_le_trans]. }
  split; [exact Hlist|].
  assert (Hlen : length (rows (users (db w'))) = length survivors).
  { rewrite <-(listing_perm (db w')), Hlist. apply renumber_length. }
  rewrite Hlist, renumber_orders, renumber_delete_order, Hlen. done.
Qed.

(** *** A roster to run the handlers on *)

Lemma roster_db_valid : valid roster_db.
Proof. split; apply constraints_ok_spec; by vm_compute. Defined.

Lemma delete_users_resequences_witness :
  valid roster_db
  ∧ fault_free []
  ∧ (run (delete_users "2") (world_of roster_db [])).1 = json JSuccess
  ∧ (λ r : obj, r !! "order")
      <$> listing (db (run (delete_users "2") (world_of roster_db [])).2)
    = (λ n, Some (VNum (num_of_nat n)))
      <$> seq 1 (length (rows (users
            (db (run (delete_users "2") (world_of roster_db [])).2)))).
Proof.
  split; [exact roster_db_valid|]. split; [constructor|].
  pose proof (delete_users_resequences "2" (world_of roster_db [])
                roster_db_valid (Forall_nil_2 _)) as H.
  cbv zeta in H. destruct H as (H1 & _ & H3 & _). by split.
Defined.

Lemma roster_max : current_max roster_db (Qc_of_Z 3).
Proof.
  apply current_max_order. split.
  - exists (user 3 3 "carol"). split; [|reflexivity].
    right; right; left.
  - intros r Hr. cbn [roster_db users rows] in Hr.
    repeat (apply elem_of_cons in Hr as [->|Hr]).
    + exists (Qc_of_Z 1). split; [reflexivity|].
      apply (proj1 (Z2Qc_inj_le 1 3)). lia.
    + exists (Qc_of_Z 2). split; [reflexivity|].
      apply (proj1 (Z2Qc_inj_le 2 3)). lia.
    + exists (Qc_of_Z 3). split; [reflexivity|].
      apply (proj1 (Z2Qc_inj_le 3 3)). lia.
    + by apply elem_of_nil in Hr.
Defined.

Lemma post_users_order_witness :
  current_max roster_db (Qc_of_Z 3)
  ∧ to_double (Qc_of_Z 3) = Fin (Qc_of_Z 3)
  ∧ to_double (Qc_of_Z 3 + 1)%Qc = Fin (Qc_of_Z 3 + 1)%Qc
  ∧ ∃ data,
      (run (post_users (Some {[ "name" := VStr "dave" ]}))
         (world_of roster_db [])).1
        = {| status := 201; body := JRow data |}
      ∧ data !! "order" = Some (VNum (Fin (Qc_of_Z 3 + 1)%Qc)).
Proof.
  assert (H3 : to_double (Qc_of_Z 3) = Fin (Qc_of_Z 3)) by by_evaluation.
  assert (H4 : to_double (Qc_of_Z 3 + 1)%Qc = Fin (Qc_of_Z 3 + 1)%Qc)
    by by_evaluation.
  split; [exact roster_max|]. split; [exact H3|]. split; [exact H4|].
  pose proof (post_users_order (Some {[ "name" := VStr "dave" ]})
                (world_of roster_db []) (Qc_of_Z 3) roster_max H3 H4) as H.
  cbv zeta in H. simpl next_fault in H.
  destruct H as [_ [(data & Hr & Ho & _)|(e & He & _)]].
  - by exists data.
  - exfalso. apply (f_equal status) in He. vm_compute in He. discriminate He.
Defined.

(** ** Further properties of the handlers *)

(** *** Every route *)

(** X1: a request whose first statement the store fails is answered with
    the 500 error carrying that error, has issued that one statement only,
    and has left the store as it was. *)
Theorem first_statement_failure (r : request) (w : world) (e : error) :
  next_fault (faults w) = Some e →
  (run (handle r) w).1 = internal_error e
  ∧ db (run (handle r) w).2 = db w
  ∧ length (trace_of (handle r) w) = 1%nat.
Proof.
  intros Hf.
  destruct r; simpl handle;
    unfold get_users, post_users, put_users, patch_users, delete_users,
      get_attendance, post_attendance, put_attendance, delete_attendance;
    run_handler; rewrite (step_fault _ w _ Hf); simpl;
    by rewrite drop_app_length.
Qed.

Lemma first_statement_failure_witness :
  next_fault [Some outage] = Some outage
  ∧ (run (handle (DeleteUsers "2")) (world_of roster_db [Some outage])).1
      = internal_error outage
  ∧ db (run (handle (DeleteUsers "2")) (world_of roster_db [Some outage])).2
      = roster_db.
Proof.
  split; [reflexivity|].
  destruct (first_statement_failure (DeleteUsers "2")
              (world_of roster_db [Some outage]) outage eq_refl)
    as (H1 & H2 & _).
  by split.
Defined.

Lemma step_log (q : query) (w : world) : log (step q w).2 = log w.
Proof.
  unfold step. by destruct (match next_fault _ with Some _ => _ | None => _ end).
Qed.

Lemma step_calls (q : query) (w : world) : calls (step q w).2 = calls w ++ [q].
Proof.
  unfold step. by destruct (match next_fault _ with Some _ => _ | None => _ end).
Qed.

Lemma step_faults (q : query) (w : world) :
  faults (step q w).2 = tail (faults w).
Proof.
  unfold step. by destruct (match next_fault _ with Some _ => _ | None => _ end).
Qed.

Lemma resequence_log (all : list obj) (i : nat) (w : world) :
  log (run (resequence i all) w).2 = log w.
Proof.
  revert i w. induction all as [|row all IH]; intros i w; [done|].
  cbn [resequence]. rewrite run_bind, IH.
  destruct (strict_eq_num _ _); [done|].
  cbn [negb]. run_handler.
  match goal with |- context [step ?q ?w0] =>
    pose proof (step_log q w0) as Hl; by destruct (step q w0) end.
Qed.

Ltac step_cases :=
  match goal with
  | |- context [step ?q ?w0] =>
      let H := fresh "Hlog" in
      pose proof (step_log q w0) as H;
      destruct (step q w0) as [[?data|?e] ?w1]; cbn [snd] in H;
      run_handler; cbn [fst snd log]
  end.

(** X2: a handler writes to the error log exactly when it answers 500, one
    entry that holds the error the response reports; every other response
    (200, 201, 400) leaves the log as it was. *)
Theorem error_logged_once (r : request) (w : world) :
  (∃ place e,
      (run (handle r) w).1 = internal_error e
      ∧ log (run (handle r) w).2 = log w ++ [(place, e)])
  ∨ (status (run (handle r) w).1 ≠ 500%nat
     ∧ log (run (handle r) w).2 = log w).
Proof.
  destruct r; simpl handle;
    unfold get_users, post_users, put_users, patch_users, delete_users,
      get_attendance, post_attendance, put_attendance, delete_attendance;
    run_handler; step_cases;
    try (left; eexists _, _; split; [reflexivity|by rewrite Hlog]);
    try (right; split; [discriminate|done]).
  - step_cases.
    + right. split; [discriminate|by rewrite Hlog0].
    + left. eexists _, _. split; [reflexivity|]. by rewrite Hlog0, Hlog.
  - step_cases.
    + rewrite run_bind. cbn [run mret prog_ret fst snd].
      right. split; [discriminate|]. by rewrite resequence_log, Hlog0.
    + left. eexists _, _. split; [reflexivity|]. by rewrite Hlog0, Hlog.
  - destruct (0 <? length data)%nat.
    + right. split; [discriminate|done].
    + run_handler. step_cases.
      * right. split; [discriminate|by rewrite Hlog0].
      * left. eexists _, _. split; [reflexivity|]. by rewrite Hlog0, Hlog.
Qed.

Lemma exec_other_table (q : query) (d : database) :
  get_table (other_table (query_table q)) (exec q d).2
    = get_table (other_table (query_table q)) d.
Proof.
  destruct q as [t ? ? ? ?|t p|t u f|t u f|t f]; cbn [exec query_table];
    [done|..].
  - destruct (run_insert _ _ _). by destruct t.
  - destruct (run_update_single _ _ _ _). by destruct t.
  - destruct (run_update _ _ _ _). by destruct t.
  - destruct (run_delete _ _). by destruct t.
Qed.

Lemma step_other_table (q : query) (w : world) :
  get_table (other_table (query_table q)) (db (step q w).2)
    = get_table (other_table (query_table q)) (db w).
Proof.
  unfold step. destruct (next_fault (faults w)); [done|].
  pose proof (exec_other_table q (db w)) as H.
  by destruct (exec q (db w)).
Qed.

Lemma on_table_bind {A B : Type} (t : table) (p : prog A) (k : A → prog B) :
  on_table t p → (∀ a, on_table t (k a)) → on_table t (p ≫= k).
Proof.
  intros Hp Hk. induction Hp as [a|q h Hq _ IH|place e p _ IH].
  - apply Hk.
  - by apply on_table_call.
  - by apply on_table_log.
Qed.

Lemma resequence_on_table (all : list obj) (i : nat) :
  on_table Users (resequence i all).
Proof.
  revert i. induction all as [|row all IH]; intros i; [constructor|].
  cbn [resequence]. apply on_table_bind; [|intros _; apply IH].
  destruct (negb _); repeat constructor.
Qed.

Lemma handle_on_table (r : request) : on_table (table_of r) (handle r).
Proof.
  destruct r; simpl;
    unfold get_users, post_users, put_users, patch_users, delete_users,
      get_attendance, post_attendance, put_attendance, delete_attendance;
    apply on_table_call; try done; intros [data|e]; try (repeat constructor).
  - intros [data'|e]; repeat constructor.
  - intros [all|e]; [|repeat constructor].
    apply on_table_bind; [apply resequence_on_table|constructor].
  - destruct (0 <? length data)%nat; repeat constructor.
    intros [data'|e]; repeat constructor.
Qed.

(** X3: the two resources are apart: whatever fails, a request on
    [/users] leaves the attendanceHistory table as it was, and a request on
    [/attendanceHistory] leaves the users table as it was. *)
Theorem other_table_untouched (r : request) (w : world) :
  get_table (other_table (table_of r)) (db (run (handle r) w).2)
    = get_table (other_table (table_of r)) (db w).
Proof.
  pose proof (handle_on_table r) as Hp.
  generalize dependent (handle r). generalize (table_of r). clear r.
  intros t p Hp. revert w.
  induction Hp as [a|q k Hq _ IH|place e p _ IH]; intros w; simpl.
  - done.
  - pose proof (step_other_table q w) as Hs. rewrite Hq in Hs.
    destruct (step q w) as [r w1]. by rewrite IH.
  - by rewrite IH.
Qed.

(** *** attendanceHistory *)

(** X4: GET /attendanceHistory answers 200 with all the records in the
    ascending order of [id] when the store query succeeds and the 500 error
    when it fails, and never changes the store. *)
Theorem get_attendance_response (w : world) :
  let data := sort_by (row_le "id" true) (rows (attendanceHistory (db w))) in
  (run get_attendance w).1 =
    match next_fault (faults w) with
    | Some e => internal_error e
    | None => json (JRows data)
    end
  ∧ data ≡ₚ rows (attendanceHistory (db w))
  ∧ StronglySorted (λ r1 r2 : obj, cell_le (r1 !! "id") (r2 !! "id") = true) data
  ∧ db (run get_attendance w).2 = db w.
Proof.
  intros data. subst data. repeat split.
  - unfold get_attendance. run_handler. run_step; [done|].
    unfold run_select. rewrite filter_no_filters. cbn [project get_table].
    by rewrite list_fmap_id.
  - apply sort_by_perm.
  - apply (sort_by_sorted (row_le "id" true));
      [apply row_le_total|apply row_le_trans].
  - unfold get_attendance. run_handler. by run_step.
Qed.

Lemma update_single_frame_at (t : table) (body : obj) param (d : database) :
  let d' := (exec (UpdateSingle t (delete "id" body) (id_filter param)) d).2 in
  next_id (get_table t d') = next_id (get_table t d)
  ∧ Forall2 (field_frame body param)
      (rows (get_table t d)) (rows (get_table t d')).
Proof.
  cbn [exec]. unfold run_update_single.
  assert (Hrefl : Forall2 (field_frame body param)
                    (rows (get_table t d)) (rows (get_table t d))).
  { apply Forall_Forall2_diag, Forall_true, field_frame_refl. }
  destruct (filter _ _) as [|r [|]]; simpl;
    try (rewrite set_get_table; by split).
  destruct (constraints_ok _ _); simpl;
    [|rewrite set_get_table; by split].
  destruct t; simpl; (split; [done|]); unfold apply_update;
    apply Forall2_fmap_r, Forall_Forall2_diag, Forall_true;
    intros r0; apply field_frame_update.
Qed.

(** X5: PUT /attendanceHistory/:id issues one statement, the update by
    identifier with the body's fields except [id], and no existence check;
    whatever the outcome, every record keeps its identifier and the fields
    the body does not supply, and records the identifier does not match are
    kept whole. *)
Theorem put_attendance_frame (param : string) (req_body : option obj) (w : world) :
  let body := default ∅ req_body in
  let w' := (run (put_attendance param req_body) w).2 in
  trace_of (put_attendance param req_body) w
    = [UpdateSingle AttendanceHistory (strip_id req_body) (id_filter param)]
  ∧ next_id (attendanceHistory (db w')) = next_id (attendanceHistory (db w))
  ∧ Forall2 (field_frame body param)
      (rows (attendanceHistory (db w))) (rows (attendanceHistory (db w'))).
Proof.
  intros body w'. subst w'.
  unfold put_attendance, strip_id, id_filter. fold body. run_handler.
  split.
  - run_step; [by rewrite drop_app_length|].
    destruct (run_update_single _ _ _ _) as [[data|e] tb]; simpl;
      by rewrite drop_app_length.
  - destruct (next_fault (faults w)) as [e|] eqn:Hs.
    + rewrite (step_fault _ w _ Hs). simpl. split; [done|].
      apply Forall_Forall2_diag, Forall_true, field_frame_refl.
    + rewrite (step_exec _ w Hs).
      pose proof (update_single_frame_at AttendanceHistory body param (db w))
        as Hf.
      unfold id_filter in Hf. cbv zeta in Hf. cbn [get_table] in Hf.
      by destruct (exec _ (db w)) as [[data|e] d'].
Qed.

(** X6: DELETE /attendanceHistory/:id, when its statement succeeds, answers
    [{success: true}] and removes exactly the records the identifier
    matches, the others staying as they were and in their order; when the
    statement fails it answers the 500 error and removes nothing. *)
Theorem delete_attendance_effect (param : string) (w : world) :
  let w' := (run (delete_attendance param) w).2 in
  match next_fault (faults w) with
  | Some e =>
      (run (delete_attendance param) w).1 = internal_error e ∧ db w' = db w
  | None =>
      (run (delete_attendance param) w).1 = json JSuccess
      ∧ rows (attendanceHistory (db w'))
          = filter (λ r, ¬ row_matches (id_filter param) r)
              (rows (attendanceHistory (db w)))
      ∧ next_id (attendanceHistory (db w')) = next_id (attendanceHistory (db w))
      ∧ no_match AttendanceHistory param (db w')
  end.
Proof.
  intros w'. subst w'. unfold delete_attendance, id_filter. run_handler.
  run_step; [done|].
  unfold run_delete. cbn. repeat split.
  unfold no_match. cbn. apply Forall_forall.
  intros r [Hr _]%list_elem_of_filter.
  apply not_true_iff_false. intros E. apply Hr, Is_true_true. exact E.
Qed.

Lemma post_attendance_db (req_body : option obj) (w : world) :
  let body := default ∅ req_body in
  let resp := (run (post_attendance req_body) w).1 in
  let w' := (run (post_attendance req_body) w).2 in
  (db w' = db w ∧ status resp ≠ 201%nat)
  ∨ (duplicates body (db w) = []
     ∧ ∃ data, resp = {| status := 201; body := JRow data |}
         ∧ delete "id" data = delete "id" body
         ∧ rows (attendanceHistory (db w'))
             = rows (attendanceHistory (db w)) ++ [data]).
Proof.
  intros body resp w'. subst resp w'.
  unfold post_attendance, duplicates. fold body. run_handler.
  run_step; [by left|].
  unfold run_select. cbn [get_table]. fold (triple body).
  destruct (filter _ (rows (attendanceHistory (db w)))) as [|r rs] eqn:Hdup;
    [|by left].
  cbn [fmap list_fmap length Nat.ltb Nat.leb]. run_handler. run_step; [by left|].
  unfold run_insert. cbn [get_table].
  destruct (body !! "id") as [v|] eqn:Hid;
    destruct (constraints_ok _ _); simpl;
    try (left; split; [by destruct (db w) as [[] []]|discriminate]).
  - right. split; [done|]. by exists body.
  - right. split; [done|]. eexists. repeat split. by rewrite delete_insert_eq.
Qed.

Lemma post_attendance_duplicate (req_body : option obj) (w : world) :
  next_fault (faults w) = None →
  duplicates (default ∅ req_body) (db w) ≠ [] →
  (run (post_attendance req_body) w).1 = duplicate_attendance
  ∧ db (run (post_attendance req_body) w).2 = db w.
Proof.
  intros Hf Hdup. unfold post_attendance, duplicates in *. run_handler.
  rewrite (step_exec _ w Hf). cbn [exec fst snd get_table].
  unfold run_select. fold (triple (default ∅ req_body)).
  by destruct (filter _ (rows (attendanceHistory (db w)))).
Qed.

Lemma row_matches_triple_sym (a b : obj) :
  row_matches (triple a) b = row_matches (triple b) a.
Proof.
  apply eq_true_iff_eq. rewrite !triple_matches.
  split; intros H c Hc; destruct (H c Hc) as (v & ? & ? & ?); eauto.
Qed.

Lemma triple_ignores_id (a b : obj) :
  delete "id" a = delete "id" b → triple a = triple b.
Proof.
  intros H. unfold triple.
  assert (∀ c, c ≠ "id" → a !! c = b !! c) as Hc.
  { intros c Hne. by rewrite <-(lookup_delete_ne a "id" c),
      <-(lookup_delete_ne b "id" c), H. }
  by rewrite !Hc.
Qed.

(** X7: POST /attendanceHistory keeps the triples apart: if no two records
    are found by each other's (date, group, day), that is still so after the
    request, whatever fails. *)
Theorem post_attendance_keeps_unique (req_body : option obj) (w : world) :
  triple_unique (rows (attendanceHistory (db w))) →
  triple_unique
    (rows (attendanceHistory (db (run (post_attendance req_body) w).2))).
Proof.
  intros Huniq.
  destruct (post_attendance_db req_body w)
    as [[-> _]|(Hdup & data & _ & Hdata & ->)]; [done|].
  apply triple_ignores_id in Hdata.
  assert (Hnone : ∀ r, r ∈ rows (attendanceHistory (db w)) →
            row_matches (triple data) r = false).
  { intros r Hr. rewrite Hdata. apply not_true_iff_false. intros Hm.
    assert (r ∈ duplicates (default ∅ req_body) (db w)) as Hin.
    { apply list_elem_of_filter. split; [by apply Is_true_true|done]. }
    rewrite Hdup in Hin. by apply elem_of_nil in Hin. }
  intros i j r1 r2 Hi Hj Hne.
  apply lookup_snoc_Some in Hi as [[Hi1 Hi2]|[Hi1 <-]];
    apply lookup_snoc_Some in Hj as [[Hj1 Hj2]|[Hj1 <-]].
  - by apply (Huniq i j).
  - rewrite row_matches_triple_sym. by eapply Hnone, list_elem_of_lookup_2.
  - by eapply Hnone, list_elem_of_lookup_2.
  - lia.
Qed.

Lemma week_db_unique : triple_unique (rows (attendanceHistory week_db)).
Proof.
  intros i j r1 r2 Hi Hj Hne. cbn [week_db attendanceHistory rows] in Hi, Hj.
  destruct i as [|[|i]], j as [|[|j]]; try done;
    cbn in Hi, Hj; try discriminate Hi; try discriminate Hj;
    injection Hi as <-; injection Hj as <-; by_evaluation.
Defined.

Lemma post_attendance_keeps_unique_witness :
  let w' := (run (post_attendance (Some wednesday)) (world_of week_db [])).2 in
  triple_unique (rows (attendanceHistory week_db))
  ∧ status (run (post_attendance (Some wednesday)) (world_of week_db [])).1
      = 201%nat
  ∧ rows (attendanceHistory (db w'))
      = [monday; tuesday; <["id" := VNum (num_of_Z 3)]> wednesday]
  ∧ triple_unique (rows (attendanceHistory (db w'))).
Proof.
  intros w'. split; [exact week_db_unique|].
  split; [by_evaluation|]. split; [by_evaluation|].
  exact (post_attendance_keeps_unique (Some wednesday) (world_of week_db [])
           week_db_unique).
Defined.

(** X8: a second POST /attendanceHistory with the body of one that was
    answered 201 is answered 400 and stores nothing, provided the body has
    the three fields of the triple, none null, every field of it reaches
    the store as it is (no number that is not finite, which JSON writes as
    null), and the existence check of the second request succeeds. *)
Theorem post_attendance_twice (req_body : option obj) (w : world) :
  has_triple (default ∅ req_body) →
  serialisable (default ∅ req_body) →
  status (run (post_attendance req_body) w).1 = 201%nat →
  next_fault (faults (run (post_attendance req_body) w).2) = None →
  (run (post_attendance req_body) (run (post_attendance req_body) w).2).1
    = duplicate_attendance
  ∧ db (run (post_attendance req_body) (run (post_attendance req_body) w).2).2
    = db (run (post_attendance req_body) w).2.
Proof.
  intros Hbody _ H201 Hf.
  apply post_attendance_duplicate; [done|].
  destruct (post_attendance_db req_body w)
    as [[_ Hne]|(_ & data & _ & Hdata & Hrows)]; [done|].
  unfold duplicates. rewrite Hrows, filter_app, filter_cons.
  rewrite decide_True; [by destruct (filter _ _)|].
  apply Is_true_true, triple_matches. intros c Hc.
  destruct (Hbody c Hc) as (v & Hv & Hbv). exists v. repeat split; [done| |done].
  assert (c ≠ "id") as Hcid.
  { intros ->. repeat (apply elem_of_cons in Hc as [[=]|Hc]).
    by apply elem_of_nil in Hc. }
  by rewrite <-(lookup_delete_ne data "id" c), Hdata, lookup_delete_ne.
Qed.

Lemma post_attendance_twice_witness :
  let b := Some (delete "id" monday) in
  let w1 := (run (post_attendance b) (world_of empty_db [])).2 in
  has_triple (delete "id" monday)
  ∧ serialisable (delete "id" monday)
  ∧ status (run (post_attendance b) (world_of empty_db [])).1 = 201%nat
  ∧ next_fault (faults w1) = None
  ∧ (run (post_attendance b) w1).1 = duplicate_attendance.
Proof.
  intros b w1.
  assert (H1 : has_triple (delete "id" monday)).
  { intros c Hc. repeat (apply elem_of_cons in Hc as [->|Hc]);
      [by eexists; split; [|reflexivity]..|by apply elem_of_nil in Hc]. }
  assert (H2 : status (run (post_attendance b) (world_of empty_db [])).1
               = 201%nat) by (by vm_compute).
  assert (H3 : next_fault (faults w1) = None) by (by vm_compute).
  assert (Hs : serialisable (delete "id" monday)) by by_evaluation.
  split; [exact H1|]. split; [exact Hs|].
  split; [exact H2|]. split; [exact H3|].
  exact (proj1 (post_attendance_twice b (world_of empty_db []) H1 Hs H2 H3)).
Defined.

(** *** users: the dense ordering *)

Lemma insert_sorted_snoc {A : Type} (le : A → A → bool) (x y : A) (s : list A) :
  le y x = true →
  insert_sorted le y (s ++ [x]) = insert_sorted le y s ++ [x].
Proof.
  intros Hyx. induction s as [|z s IH]; simpl.
  - by rewrite Hyx.
  - destruct (le y z); [done|]. by rewrite IH.
Qed.

(** A row above all the others is listed last. *)
Lemma sort_by_snoc {A : Type} (le : A → A → bool) (l : list A) (x : A) :
  Forall (λ y, le y x = true) l →
  sort_by le (l ++ [x]) = sort_by le l ++ [x].
Proof.
  induction 1 as [|y l Hy _ IH]; simpl; [done|].
  by rewrite IH, insert_sorted_snoc.
Qed.

Lemma listing_length (d : database) :
  length (listing d) = length (rows (users d)).
Proof. by rewrite listing_perm. Qed.

Lemma dense_lookup (d : database) (j : nat) (r : obj) :
  dense d → listing d !! j = Some r →
  r !! "order" = Some (VNum (num_of_nat (j + 1))).
Proof.
  intros Hd Hj. pose proof (f_equal (.!! j) Hd) as H.
  rewrite !list_lookup_fmap, Hj in H. simpl in H.
  rewrite lookup_seq_lt in H.
  - simpl in H. injection H as ->. by rewrite Nat.add_1_r.
  - rewrite <-listing_length. by eapply lookup_lt_Some.
Qed.

(** A count below [2^53] and its successor are doubles. *)
Lemma num_of_nat_succ (n : nat) :
  (Z.of_nat n < 2 ^ 53)%Z →
  to_double (Qc_of_Z (Z.of_nat n) + 1)%Qc = num_of_nat (n + 1).
Proof.
  intros Hn. unfold num_of_nat, num_of_Z.
  rewrite <-Z2Qc_inj_1, <-Z2Qc_inj_add, to_double_integer by lia.
  do 2 f_equal. lia.
Qed.

Lemma dense_current_max (d : database) :
  dense d → current_max d (Qc_of_Z (Z.of_nat (length (rows (users d))))).
Proof.
  intros Hd. destruct (rows (users d)) as [|r0 rs] eqn:Hrows.
  { change (current_max d (Qc_of_Z 0)). rewrite Z2Qc_inj_0. by constructor. }
  assert (0 < length (rows (users d)))%nat as Hpos
    by (rewrite Hrows; simpl; lia).
  rewrite <-Hrows. clear Hrows. apply current_max_order. split.
  - destruct (lookup_lt_is_Some_2 (listing d) (length (rows (users d)) - 1))
      as [r Hr].
    { rewrite listing_length. lia. }
    exists r. split.
    + rewrite <-listing_perm. by eapply list_elem_of_lookup_2.
    + rewrite (dense_lookup d _ r Hd Hr).
      by replace (length (rows (users d)) - 1 + 1)%nat
        with (length (rows (users d))) by lia.
  - intros r Hr. rewrite <-listing_perm in Hr.
    apply list_elem_of_lookup in Hr as [j Hj].
    exists (Qc_of_Z (Z.of_nat (j + 1))). split.
    + by apply (dense_lookup d).
    + apply lookup_lt_Some in Hj. rewrite listing_length in Hj.
      apply (proj1 (Z2Qc_inj_le _ _)). lia.
Qed.

Lemma dense_computed_order (d : database) :
  dense d →
  (Z.of_nat (length (rows (users d))) < 2 ^ 53)%Z →
  computed_order d = VNum (num_of_nat (length (rows (users d)) + 1)).
Proof.
  intros Hd Hn. rewrite (computed_order_max d _ (dense_current_max d Hd)).
  by rewrite num_of_nat_succ.
Qed.

Lemma post_users_db (req_body : option obj) (w : world) :
  let body := default ∅ req_body in
  let resp := (run (post_users req_body) w).1 in
  let w' := (run (post_users req_body) w).2 in
  (db w' = db w ∧ status resp ≠ 201%nat)
  ∨ ∃ data, resp = {| status := 201; body := JRow data |}
      ∧ data !! "order" = Some (computed_order (db w))
      ∧ data !! "checked" = Some (nullish (body !! "checked") (VBool false))
      ∧ (∀ k, k ∉ ["id"; "order"; "checked"] → data !! k = body !! k)
      ∧ rows (users (db w')) = rows (users (db w)) ++ [data].
Proof.
  intros body resp w'. subst resp w'.
  unfold post_users, computed_order. fold body. run_handler.
  run_step; [by left|]. cbn [get_table]. run_step; [by left|].
  unfold run_insert. cbn [get_table].
  set (payload := new_user body _).
  assert (Hpay : payload !! "order" = Some (add1 (last_order
            (run_select (rows (users (db w))) (Col "order") []
               (Some ("order", false)) (Some 1%nat))))
          ∧ payload !! "checked"
              = Some (nullish (body !! "checked") (VBool false))
          ∧ ∀ k, k ∉ ["id"; "order"; "checked"] → payload !! k = body !! k).
  { subst payload. unfold new_user. repeat split.
    - by rewrite lookup_insert_ne, lookup_insert_eq.
    - by rewrite lookup_insert_eq.
    - intros k Hk. rewrite !lookup_insert_ne; [done|..];
        intros <-; apply Hk; rewrite !elem_of_cons; auto. }
  destruct Hpay as (Ho & Hc & Hk).
  destruct (payload !! "id") as [v|] eqn:Hid;
    destruct (constraints_ok _ _); simpl;
    try (left; split; [by destruct (db w) as [[] []]|discriminate]).
  - right. exists payload. by repeat split.
  - right. eexists. split; [reflexivity|].
    rewrite !lookup_insert_ne by done. repeat split; try done.
    intros k Hk'. rewrite lookup_insert_ne; [by apply Hk|].
    intros <-. apply Hk'. rewrite !elem_of_cons. auto.
Qed.

Lemma post_users_listing (req_body : option obj) (w : world) (data : obj) :
  dense (db w) →
  (Z.of_nat (length (rows (users (db w)))) < 2 ^ 53)%Z →
  data !! "order" = Some (computed_order (db w)) →
  rows (users (db (run (post_users req_body) w).2))
    = rows (users (db w)) ++ [data] →
  listing (db (run (post_users req_body) w).2) = listing (db w) ++ [data].
Proof.
  intros Hd Hn Ho Hrows. rewrite dense_computed_order in Ho by done.
  unfold listing. rewrite Hrows. apply sort_by_snoc, Forall_forall.
  intros r Hr. rewrite <-listing_perm in Hr.
  apply list_elem_of_lookup in Hr as [j Hj].
  unfold row_le. rewrite (dense_lookup _ _ _ Hd Hj), Ho. simpl.
  apply num_of_nat_le. apply lookup_lt_Some in Hj.
  rewrite listing_length in Hj. lia.
Qed.

Lemma post_users_keeps_dense_aux (req_body : option obj) (w : world) :
  dense (db w) →
  (Z.of_nat (length (rows (users (db w)))) < 2 ^ 53)%Z →
  dense (db (run (post_users req_body) w).2).
Proof.
  intros Hd Hn.
  destruct (post_users_db req_body w)
    as [[Hdb Hne]|(data & Hresp & Ho & _ & _ & Hrows)]; [by rewrite Hdb|].
  unfold dense.
  rewrite (post_users_listing req_body w data Hd Hn Ho Hrows), Hrows.
  rewrite dense_computed_order in Ho by done.
  rewrite fmap_snoc, Hd, Ho, length_app.
  cbn [length]. by rewrite Nat.add_1_r, seq_S, fmap_snoc.
Qed.

(** X9: POST /users keeps the ordering dense: if the user records listed
    by [order] carry 1, ..., N before the request, with N below [2^53] so
    that N + 1 is a double, they carry 1, ..., N' for the N' records there
    are after it, whatever fails; the new record, when one is stored, is
    listed last and carries N + 1. *)
Theorem post_users_keeps_dense (req_body : option obj) (w : world) :
  dense (db w) →
  (Z.of_nat (length (rows (users (db w)))) < 2 ^ 53)%Z →
  dense (db (run (post_users req_body) w).2)
  ∧ ∀ data, (run (post_users req_body) w).1
              = {| status := 201; body := JRow data |} →
      listing (db (run (post_users req_body) w).2) = listing (db w) ++ [data]
      ∧ data !! "order"
          = Some (VNum (num_of_nat (length (rows (users (db w))) + 1))).
Proof.
  intros Hd Hn. split; [by apply post_users_keeps_dense_aux|].
  intros data Hr.
  destruct (post_users_db req_body w)
    as [[Hdb Hne]|(data' & Hresp & Ho & _ & _ & Hrows)].
  { by rewrite Hr in Hne. }
  rewrite Hresp in Hr. injection Hr as <-.
  split; [by apply post_users_listing|].
  by rewrite <-dense_computed_order.
Qed.

Lemma roster_db_dense : dense roster_db.
Proof. by vm_compute. Defined.

Lemma post_users_keeps_dense_witness :
  dense roster_db
  ∧ (Z.of_nat (length (rows (users roster_db))) < 2 ^ 53)%Z
  ∧ dense (db (run (post_users (Some {[ "name" := VStr "dave" ]}))
                 (world_of roster_db [])).2).
Proof.
  assert (Hn : (Z.of_nat (length (rows (users roster_db))) < 2 ^ 53)%Z)
    by reflexivity.
  split; [exact roster_db_dense|]. split; [exact Hn|].
  exact (proj1 (post_users_keeps_dense _ (world_of roster_db [])
                  roster_db_dense Hn)).
Defined.

(** *** DELETE /users/:id under failures *)

Lemma delete_order_update (v : value) (filters : list filter_eq) (rs : list obj) :
  delete "order" <$> apply_update {[ "order" := v ]} filters rs
    = delete "order" <$> rs.
Proof.
  unfold apply_update. rewrite <-list_fmap_compose. apply list_fmap_ext.
  intros _ r _. simpl. destruct (row_matches filters r); [|done].
  by rewrite <-insert_union_singleton_l, delete_insert_eq.
Qed.

Lemma step_update_order (v : value) (filters : list filter_eq) (w : world) :
  let w' := (step (Update Users {[ "order" := v ]} filters) w).2 in
  delete "order" <$> rows (users (db w')) = delete "order" <$> rows (users (db w))
  ∧ next_id (users (db w')) = next_id (users (db w)).
Proof.
  unfold step. destruct (next_fault (faults w)); [done|].
  cbn [exec get_table]. unfold run_update.
  destruct (constraints_ok _ _); simpl; [|done].
  by rewrite delete_order_update.
Qed.

(** The loop changes no field but [order], whatever fails. *)
Lemma resequence_only_order (all : list obj) (i : nat) (w : world) :
  let w' := (run (resequence i all) w).2 in
  delete "order" <$> rows (users (db w')) = delete "order" <$> rows (users (db w))
  ∧ next_id (users (db w')) = next_id (users (db w)).
Proof.
  revert i w. induction all as [|row all IH]; intros i w; [done|].
  cbn [resequence]. cbv zeta. rewrite run_bind. cbv beta.
  match goal with |- context [run (resequence (S i) all) ?w1] =>
    destruct (IH (S i) w1) as [-> ->] end.
  destruct (strict_eq_num _ _); [done|]. cbn [negb]. run_handler.
  match goal with |- context [step ?q w] =>
    pose proof (step_update_order (VNum (num_of_nat (i + 1)))
                  [("id", row !! "id")] w) as Hs;
    cbv zeta in Hs; by destruct (step q w) end.
Qed.

Lemma row_matches_id (filters_id : option value) (r r' : obj) :
  delete "order" r' = delete "order" r →
  row_matches [("id", filters_id)] r' = row_matches [("id", filters_id)] r.
Proof.
  intros H. unfold row_matches. simpl.
  by rewrite <-(lookup_delete_ne r' "order" "id"), H, lookup_delete_ne.
Qed.

(** X10: whatever fails, DELETE /users/:id changes no field of a surviving
    record but [order] and adds no record; when the primary delete fails the
    store is as it was, and when it succeeds no record with the identifier
    is left, even if the re-read or a corrective update fails. *)
Theorem delete_users_only_order (param : string) (w : world) :
  let w' := (run (delete_users param) w).2 in
  match next_fault (faults w) with
  | Some _ => db w' = db w
  | None =>
      delete "order" <$> rows (users (db w'))
        = delete "order"
            <$> filter (λ r, ¬ row_matches (id_filter param) r)
                  (rows (users (db w)))
      ∧ next_id (users (db w')) = next_id (users (db w))
      ∧ no_match Users param (db w')
  end.
Proof.
  intros w'. subst w'.
  destruct (next_fault (faults w)) as [e|] eqn:H1.
  { unfold delete_users. run_handler. by rewrite (step_fault _ w _ H1). }
  set (rows1 := filter (λ r, ¬ row_matches (id_filter param) r)
                  (rows (users (db w)))).
  assert (Hframe :
    delete "order" <$> rows (users (db (run (delete_users param) w).2))
      = delete "order" <$> rows1
    ∧ next_id (users (db (run (delete_users param) w).2))
      = next_id (users (db w))).
  { destruct (next_fault (tail (faults w))) as [e|] eqn:H2.
    - unfold delete_users. run_handler. rewrite (step_exec _ w H1).
      cbn [exec run_delete fst snd]. run_handler.
      match goal with |- context [step ?q ?w1] =>
        by rewrite (step_fault q w1 e H2) end.
    - rewrite (delete_users_run param w H1 H2). cbn [snd].
      by destruct (resequence_only_order
                     (listing (db (after_delete param w))) 0
                     (after_delete param w)) as [-> ->]. }
  destruct Hframe as [Hrows Hnid]. split; [done|]. split; [done|].
  unfold no_match. cbn [get_table]. apply Forall_forall. intros r' Hr'.
  apply (list_elem_of_fmap_2 (delete "order")) in Hr'. rewrite Hrows in Hr'.
  apply list_elem_of_fmap in Hr' as (r & Heq & Hr).
  unfold id_filter. rewrite (row_matches_id _ r r' Heq).
  apply list_elem_of_filter in Hr as [Hr _].
  apply not_true_iff_false. intros E. by apply Hr, Is_true_true.
Qed.

Lemma resequence_calls (all : list obj) (i : nat) (w : world) :
  calls (run (resequence i all) w).2 = calls w ++ resequence_updates i all.
Proof.
  revert i w. induction all as [|row all IH]; intros i w.
  { simpl. by rewrite app_nil_r. }
  cbn [resequence resequence_updates]. rewrite run_bind, IH.
  destruct (strict_eq_num _ _); cbn [negb]; [done|]. run_handler.
  match goal with |- context [step ?q w] =>
    pose proof (step_calls q w) as Hs; destruct (step q w) end.
  simpl in *. by rewrite Hs, <-(assoc_L app).
Qed.

(** X11: once the primary delete and the re-read have succeeded, DELETE
    /users/:id issues one update for each re-read row whose [order] is not
    its position, in the order of the list, and none for the others; an
    update that fails does not stop the loop, and the statements are the same
    whatever the replies to the updates. *)
Theorem delete_users_statements (param : string) (w : world) :
  next_fault (faults w) = None →
  next_fault (tail (faults w)) = None →
  trace_of (delete_users param) w
    = [Delete Users (id_filter param);
       Select Users Star [] (Some ("order", true)) None]
      ++ resequence_updates 0 (listing (db (after_delete param w))).
Proof.
  intros H1 H2. unfold trace_of.
  rewrite (delete_users_run param w H1 H2). cbn [snd].
  rewrite resequence_calls.
  change (calls (after_delete param w))
    with ((calls w ++ [Delete Users (id_filter param)])
            ++ [Select Users Star [] (Some ("order", true)) None]).
  by rewrite <-!(assoc_L app), drop_app_length.
Qed.

Lemma delete_users_statements_witness :
  next_fault [None; None; Some outage] = None
  ∧ next_fault (tail [None; None; Some outage]) = None
  ∧ trace_of (delete_users "1") (world_of roster_db [None; None; Some outage])
    = [Delete Users (id_filter "1");
       Select Users Star [] (Some ("order", true)) None;
       Update Users {[ "order" := VNum (num_of_nat 1) ]}
         [("id", Some (VNum (num_of_Z 2)))];
       Update Users {[ "order" := VNum (num_of_nat 2) ]}
         [("id", Some (VNum (num_of_Z 3)))]].
Proof.
  split; [reflexivity|]. split; [reflexivity|].
  rewrite (delete_users_statements "1"
             (world_of roster_db [None; None; Some outage]) eq_refl eq_refl).
  by vm_compute.
Defined.

(** *** users: requests one after the other *)

Lemma run_fault_free {A : Type} (p : prog A) (w : world) :
  fault_free (faults w) → fault_free (faults (run p w).2).
Proof.
  revert w. induction p as [a|q k IH|place e p IH]; intros w Hff; simpl.
  - done.
  - pose proof (step_faults q w) as Hs. destruct (step q w) as [r w1].
    apply IH. simpl in Hs. rewrite Hs. by apply fault_free_tail.
  - by apply IH.
Qed.

Lemma delete_users_listing (param : string) (w : world) :
  valid (db w) → fault_free (faults w) →
  listing (db (run (delete_users param) w).2)
    = renumber 0 (filter (λ r, ¬ row_matches (id_filter param) r)
                    (listing (db w))).
Proof.
  intros [Hu _] Hff.
  rewrite (delete_users_run param w (fault_free_next _ Hff)
             (fault_free_next _ (fault_free_tail _ Hff))). cbn [snd].
  set (w2 := after_delete param w). set (all := listing (db w2)).
  destruct (resequence_run all 0 w2 []) as (Hrows & _).
  { by apply fault_free_tail, fault_free_tail. }
  { symmetry. apply listing_perm. }
  { eapply table_ok_perm; [symmetry; apply listing_perm|].
    by apply table_ok_filter. }
  simpl in Hrows.
  transitivity (renumber 0 all); [apply sort_by_renumbered; exact Hrows|].
  f_equal. subst all w2. unfold listing, after_delete. cbn [db users rows].
  symmetry. apply filter_sort_by; [apply row_le_total|apply row_le_trans].
Qed.

Lemma delete_users_dense (param : string) (w : world) :
  valid (db w) → fault_free (faults w) →
  dense (db (run (delete_users param) w).2).
Proof.
  intros Hv Hff. unfold dense.
  rewrite <-listing_length, (delete_users_listing param w Hv Hff).
  by rewrite renumber_orders, renumber_length.
Qed.

Lemma post_users_count (req_body : option obj) (w : world) :
  (length (rows (users (db (run (post_users req_body) w).2)))
   ≤ length (rows (users (db w))) + 1)%nat.
Proof.
  destruct (post_users_db req_body w)
    as [[-> _]|(data & _ & _ & _ & _ & ->)]; [lia|].
  rewrite length_app. simpl. lia.
Qed.

Lemma delete_users_count (param : string) (w : world) :
  valid (db w) → fault_free (faults w) →
  (length (rows (users (db (run (delete_users param) w).2)))
   ≤ length (rows (users (db w))))%nat.
Proof.
  intros Hv Hff.
  rewrite <-!listing_length, (delete_users_listing param w Hv Hff).
  rewrite renumber_length. apply length_filter.
Qed.

(** X12: creations and deletions on the roster compose: from a valid
    database with a dense ordering, any sequence of POST /users and DELETE
    /users/:id requests whose statements the store does not fail ends in a
    valid database with a dense ordering, whatever the bodies and the
    identifiers are, as long as the records there are and the requests
    together are at most [2^53], so that every order given is a double. *)
Theorem roster_stays_dense (ops : list roster_op) (w : world) :
  valid (db w) → dense (db w) → fault_free (faults w) →
  (Z.of_nat (length (rows (users (db w))) + length ops) ≤ 2 ^ 53)%Z →
  valid (db (run_requests (roster_request <$> ops) w))
  ∧ dense (db (run_requests (roster_request <$> ops) w)).
Proof.
  revert w. induction ops as [|op ops IH]; intros w Hv Hd Hff Hn; [done|].
  cbn [length] in Hn.
  cbn [fmap list_fmap run_requests]. apply IH.
  - by apply run_valid.
  - destruct op as [b|p]; cbn [roster_request handle].
    + apply post_users_keeps_dense_aux; [done|lia].
    + by apply delete_users_dense.
  - by apply run_fault_free.
  - destruct op as [b|p]; cbn [roster_request handle].
    + pose proof (post_users_count b w). lia.
    + pose proof (delete_users_count p w Hv Hff). lia.
Qed.

Lemma empty_db_dense : dense empty_db.
Proof. reflexivity. Defined.

Lemma roster_stays_dense_witness :
  let ops := [Create (Some {[ "name" := VStr "alice" ]});
              Create (Some {[ "name" := VStr "bob" ]});
              Remove "1"; Create None] in
  valid empty_db ∧ dense empty_db ∧ fault_free []
  ∧ (Z.of_nat (length (rows (users empty_db)) + length ops) ≤ 2 ^ 53)%Z
  ∧ dense (db (run_requests (roster_request <$> ops) (world_of empty_db []))).
Proof.
  intros ops.
  assert (Hn : (Z.of_nat (length (rows (users empty_db)) + length ops)
                ≤ 2 ^ 53)%Z) by (by vm_compute).
  split; [exact empty_db_valid|]. split; [exact empty_db_dense|].
  split; [constructor|]. split; [exact Hn|].
  exact (proj2 (roster_stays_dense ops (world_of empty_db [])
                  empty_db_valid empty_db_dense (Forall_nil_2 _) Hn)).
Defined.



(** *** Path identifiers written in decimal digits *)

Lemma digit_cases (d : N) :
  (d < 10)%N →
  d = 0%N ∨ d = 1%N ∨ d = 2%N ∨ d = 3%N ∨ d = 4%N ∨ d = 5%N ∨ d = 6%N
  ∨ d = 7%N ∨ d = 8%N ∨ d = 9%N.
Proof. lia. Qed.

Ltac each_digit H :=
  apply digit_cases in H;
  repeat (destruct H as [->|H]); try subst.

Lemma digit_of_digit_char (d : N) :
  (d < 10)%N → digit_of 10 (digit_char d) = Some d.
Proof. intros H. each_digit H; reflexivity. Qed.

Lemma digit_char_not_space (d : N) :
  (d < 10)%N → is_white_space (digit_char d) = false.
Proof. intros H. each_digit H; reflexivity. Qed.

Lemma take_sign_digit (d : N) (cs : list ascii) :
  (d < 10)%N → take_sign (digit_char d :: cs) = (false, digit_char d :: cs).
Proof. intros H. each_digit H; reflexivity. Qed.

Lemma digits_not_infinity (d : N) (cs : list ascii) :
  (d < 10)%N → bool_decide (digit_char d :: cs = infinity_text) = false.
Proof.
  intros H. apply bool_decide_eq_false. intros [= Hd _].
  each_digit H; discriminate Hd.
Qed.

Lemma take_digits_digits (ds : list N) :
  Forall (λ d, (d < 10)%N) ds →
  take_digits 10 (digit_char <$> ds) = (ds, []).
Proof.
  induction 1 as [|d ds Hd _ IH]; [done|].
  rewrite fmap_cons. cbn [take_digits].
  by rewrite (digit_of_digit_char d Hd), IH.
Qed.

Lemma trim_left_digits (ds : list N) :
  Forall (λ d, (d < 10)%N) ds →
  trim_left (digit_char <$> ds) = digit_char <$> ds.
Proof.
  destruct 1 as [|d ds Hd _]; [done|].
  rewrite fmap_cons. cbn [trim_left]. by rewrite digit_char_not_space.
Qed.

Lemma trim_digits (ds : list N) :
  Forall (λ d, (d < 10)%N) ds → trim (digit_char <$> ds) = digit_char <$> ds.
Proof.
  intros H. unfold trim. rewrite (trim_left_digits ds H), <-fmap_reverse.
  rewrite trim_left_digits by by apply Forall_reverse.
  by rewrite fmap_reverse, reverse_involutive.
Qed.

Lemma parse_non_decimal_digits (ds : list N) :
  Forall (λ d, (d < 10)%N) ds → parse_non_decimal (digit_char <$> ds) = None.
Proof.
  destruct 1 as [|d ds Hd Hds]; [done|].
  destruct Hds as [|d' ds Hd' _].
  - each_digit Hd; reflexivity.
  - each_digit Hd; try reflexivity. each_digit Hd'; reflexivity.
Qed.

(** The text of decimal digits reads as the number they write. *)
Lemma Number_digits (ds : list N) :
  ds ≠ [] → Forall (λ d, (d < 10)%N) ds →
  Number (digits_text ds) = to_double (Qc_of_Z (digits_value 10 ds)).
Proof.
  intros Hne Hds. unfold Number, digits_text.
  rewrite String.list_ascii_of_string_of_list_ascii.
  destruct ds as [|d ds]; [done|]. clear Hne.
  pose proof (trim_digits _ Hds) as Htrim.
  pose proof (parse_non_decimal_digits _ Hds) as Hnd.
  pose proof (take_digits_digits _ Hds) as Htake.
  rewrite fmap_cons in *. apply Forall_cons in Hds as [Hd Hds].
  unfold string_to_number. rewrite Htrim, Hnd.
  rewrite (take_sign_digit d _ Hd), (digits_not_infinity d _ Hd).
  unfold parse_unsigned_decimal. rewrite Htake. cbn [parse_exponent].
  unfold scale10. cbn [Z.leb Z.compare Z.pow Z.pow_pos]. by rewrite Z.mul_1_r.
Qed.

(** X14: a path identifier written in decimal digits (leading zeros
    allowed) whose value is positive and at most [2^53] reaches the store
    as the number it writes; one whose value is zero reaches it as the
    string itself. *)
Theorem parse_id_decimal (ds : list N) :
  ds ≠ [] → Forall (λ d, (d < 10)%N) ds →
  ((0 < digits_value 10 ds ≤ 2 ^ 53)%Z →
     parse_id (digits_text ds) = VNum (num_of_Z (digits_value 10 ds)))
  ∧ (digits_value 10 ds = 0%Z →
     parse_id (digits_text ds) = VStr (digits_text ds)).
Proof.
  intros Hne Hds. unfold parse_id. rewrite (Number_digits ds Hne Hds).
  split.
  - intros Hn. rewrite (to_double_integer _ Hn). cbn [num_truthy].
    rewrite bool_decide_eq_false_2; [done|].
    intros Heq. rewrite <-Z2Qc_inj_0 in Heq. apply Z2Qc_inj in Heq. lia.
  - intros ->. by rewrite to_double_zero.
Qed.

Lemma parse_id_decimal_witness :
  [4; 2]%N ≠ [] ∧ Forall (λ d, (d < 10)%N) [4; 2]%N
  ∧ (0 < digits_value 10 [4; 2]%N ≤ 2 ^ 53)%Z
  ∧ parse_id "42" = VNum (num_of_Z 42).
Proof.
  assert (H1 : [4; 2]%N ≠ []) by discriminate.
  assert (H2 : Forall (λ d, (d < 10)%N) [4; 2]%N) by (repeat constructor).
  assert (H3 : (0 < digits_value 10 [4; 2]%N ≤ 2 ^ 53)%Z).
  { split; [reflexivity|]. intros H; discriminate H. }
  split; [exact H1|]. split; [exact H2|]. split; [exact H3|].
  exact (proj1 (parse_id_decimal [4; 2]%N H1 H2) H3).
Defined.

(** *** What a successful update returns *)

Lemma update_single_ok (t : table) (u : obj) (filters : list filter_eq)
    (d : database) (data : obj) :
  (exec (UpdateSingle t u filters) d).1 = Ok data →
  data ∈ rows (get_table t (exec (UpdateSingle t u filters) d).2)
  ∧ ∃ r, r ∈ rows (get_table t d) ∧ row_matches filters r = true
         ∧ data = u ∪ r.
Proof.
  cbn [exec]. unfold run_update_single.
  destruct (filter _ _) as [|r [|]] eqn:Hf; simpl; try discriminate.
  destruct (constraints_ok _ _); simpl; [|discriminate].
  intros [= <-].
  assert (r ∈ filter (λ r, row_matches filters r) (rows (get_table t d)))
    as [Hm Hr]%list_elem_of_filter by (rewrite Hf; left).
  apply Is_true_true in Hm. split.
  - replace (rows (get_table t (set_table t _ d)))
      with (apply_update u filters (rows (get_table t d))) by by destruct t.
    unfold apply_update. apply list_elem_of_fmap. exists r.
    by rewrite Hm.
  - by exists r.
Qed.

Lemma update_handler_ok (t : table) (place : string) (param : string)
    (req_body : option obj) (w : world) (data : obj) :
  let p :=
    r ← call (UpdateSingle t (strip_id req_body) (id_filter param));
    match r with
    | Err error => handleErr place error
    | Ok data => mret (json (JRow data))
    end in
  (run p w).1 = json (JRow data) →
  data ∈ rows (get_table t (db (run p w).2))
  ∧ ∃ r, r ∈ rows (get_table t (db w))
         ∧ row_matches (id_filter param) r = true
         ∧ data = strip_id req_body ∪ r.
Proof.
  intros p. subst p. run_handler.
  destruct (next_fault (faults w)) as [e|] eqn:Hs.
  { rewrite (step_fault _ w _ Hs). discriminate. }
  rewrite (step_exec _ w Hs).
  pose proof (update_single_ok t (strip_id req_body) (id_filter param) (db w))
    as Hok.
  destruct (exec _ (db w)) as [[data'|e] d']; simpl in *; [|discriminate].
  intros [= <-]. by apply Hok.
Qed.

(** X15: when PUT /users/:id, PATCH /users/:id or PUT
    /attendanceHistory/:id answers 200, the record in the response is a
    record of the table after the request, and it is the one record the
    identifier matched, with the body's fields (except [id]) laid over
    it, provided every field of the body reaches the store as it is (no
    number that is not finite, which JSON writes as null). *)
Theorem update_returns_stored (param : string) (req_body : option obj)
    (w : world) (data : obj) :
  serialisable (default ∅ req_body) →
  ((run (put_users param req_body) w).1 = json (JRow data) →
   data ∈ rows (users (db (run (put_users param req_body) w).2))
   ∧ ∃ r, r ∈ rows (users (db w)) ∧ row_matches (id_filter param) r = true
          ∧ data = strip_id req_body ∪ r)
  ∧ ((run (patch_users param req_body) w).1 = json (JRow data) →
     data ∈ rows (users (db (run (patch_users param req_body) w).2))
     ∧ ∃ r, r ∈ rows (users (db w)) ∧ row_matches (id_filter param) r = true
            ∧ data = strip_id req_body ∪ r)
  ∧ ((run (put_attendance param req_body) w).1 = json (JRow data) →
     data ∈ rows (attendanceHistory
                    (db (run (put_attendance param req_body) w).2))
     ∧ ∃ r, r ∈ rows (attendanceHistory (db w))
            ∧ row_matches (id_filter param) r = true
            ∧ data = strip_id req_body ∪ r).
Proof.
  intros _. split; [|split].
  - apply (update_handler_ok Users "PUT /users update").
  - apply (update_handler_ok Users "PATCH /users update").
  - apply (update_handler_ok AttendanceHistory "PUT /attendanceHistory update").
Qed.

Lemma update_returns_stored_witness :
  let b := Some ({[ "checked" := VBool true; "id" := VNum (num_of_Z 9) ]} : obj) in
  let w := world_of roster_db [] in
  let data : obj := <["checked" := VBool true]> (user 2 2 "bob") in
  serialisable {[ "checked" := VBool true; "id" := VNum (num_of_Z 9) ]}
  ∧ (run (patch_users "2" b) w).1 = json (JRow data)
  ∧ data ∈ rows (users (db (run (patch_users "2" b) w).2)).
Proof.
  intros b w data.
  assert (Hs : serialisable
                 {[ "checked" := VBool true; "id" := VNum (num_of_Z 9) ]})
    by by_evaluation.
  assert (H : (run (patch_users "2" b) w).1 = json (JRow data))
    by by_evaluation.
  split; [exact Hs|]. split; [exact H|].
  exact (proj1 (proj1 (proj2 (update_returns_stored "2" b w data Hs)) H)).
Defined.
